(** * caddy-dns-register: the reconciliation engine of [app.go]

    A shallow embedding of [reconcileDomain], [parseOwnedRecords],
    [makeTXTMarker], [toLibdnsRecord] and [extractValue], together with the
    parts of Go's [strings], [net/netip], [time] and of [libdns] that these
    functions call, and the properties the specification states about them. *)

From Stdlib Require Import ZArith NArith String Ascii List Lia Bool.
From Stdlib Require Import DecimalString HexadecimalString.
From stdpp Require Import base gmap strings list fin_maps.

Set Warnings "-clear-no-such-hyp".

Local Open Scope string_scope.
Local Open Scope Z_scope.

(** ** Go's [strings] package

    A Go string is a sequence of bytes, and so is a Rocq [string]. *)
Module Strings.

(** [strings.HasPrefix(s, prefix)]. *)
Fixpoint HasPrefix (s prefix : string) {struct prefix} : bool :=
  match prefix, s with
  | EmptyString, _ => true
  | String _ _, EmptyString => false
  | String p prefix', String c s' =>
      if Ascii.eqb c p then HasPrefix s' prefix' else false
  end.

(** [s[len(prefix):]], the tail that [TrimPrefix] keeps. *)
Fixpoint drop_bytes (n : nat) (s : string) : string :=
  match n, s with
  | O, _ => s
  | S _, EmptyString => EmptyString
  | S n', String _ s' => drop_bytes n' s'
  end.

(** [strings.TrimPrefix(s, prefix)]: [s] without the leading [prefix], or
    [s] itself when it does not start with [prefix]. *)
Definition TrimPrefix (s prefix : string) : string :=
  if HasPrefix s prefix then drop_bytes (String.length prefix) s else s.

(** [strings.SplitN(s, sep, 2)] for a one-byte separator: the text before
    the first separator and the text after it, or [s] alone when it holds no
    separator. *)
Fixpoint cut (sep : ascii) (s : string) : option (string * string) :=
  match s with
  | EmptyString => None
  | String c s' =>
      if Ascii.eqb c sep then Some (EmptyString, s')
      else match cut sep s' with
           | Some (before, after) => Some (String c before, after)
           | None => None
           end
  end.

Definition SplitN2 (s : string) (sep : ascii) : list string :=
  match cut sep s with
  | Some (before, after) => [before; after]
  | None => [s]
  end.

End Strings.

(** ** Go's [net/netip]: [Addr], [ParseAddr], [Addr.String], [Addr.Is6]

    An address is the zero [Addr], four octets, or eight 16-bit groups with
    a zone (the empty zone stands for "no zone"). *)
Module netip.

Inductive Addr : Type :=
| AddrZero
| Addr4 (a b c d : N)
| Addr6 (groups : list N) (zone : string).

Definition is_digit (c : ascii) : bool :=
  let n := N_of_ascii c in ((48 <=? n) && (n <=? 57))%N.

Definition digit_val (c : ascii) : N := (N_of_ascii c - 48)%N.

(** The value of a hexadecimal digit, in either case. *)
Definition hex_val (c : ascii) : option N :=
  let n := N_of_ascii c in
  if ((48 <=? n) && (n <=? 57))%N then Some (n - 48)%N
  else if ((97 <=? n) && (n <=? 102))%N then Some (n - 97 + 10)%N
  else if ((65 <=? n) && (n <=? 70))%N then Some (n - 65 + 10)%N
  else None.

(** [parseIPv4Fields]: the scan over the dotted quad.  [fields] holds the
    octets read so far ([pos] is its length), [val] and [digLen] describe the
    octet being read, [first] says that no byte was read yet and [prevdot]
    that the previous byte was a dot. *)
Fixpoint parseIPv4_go (s : string) (fields : list N) (val : N) (digLen : nat)
    (first prevdot : bool) : option (list N) :=
  match s with
  | EmptyString =>
      if (length fields <? 3)%nat then None else Some (fields ++ [val])%list
  | String c s' =>
      if is_digit c then
        if (Nat.eqb digLen 1 && (val =? 0)%N) then None
        else
          let val' := (val * 10 + digit_val c)%N in
          if (255 <? val')%N then None
          else parseIPv4_go s' fields val' (S digLen) false false
      else if Ascii.eqb c "."%char then
        if first || prevdot || (match s' with EmptyString => true | _ => false end)
        then None
        else if Nat.eqb (length fields) 3 then None
        else parseIPv4_go s' (fields ++ [val])%list 0%N O false true
      else None
  end.

Definition parseIPv4Fields (s : string) : option (list N) :=
  parseIPv4_go s [] 0%N O true false.

Definition parseIPv4 (s : string) : option Addr :=
  match parseIPv4Fields s with
  | Some [a; b; c; d] => Some (Addr4 a b c d)
  | _ => None
  end.

(** The inner loop of [parseIPv6]: reads the hexadecimal digits of one
    group.  Returns the number of digits, the value and the rest. *)
Fixpoint hexgroup (s : string) (off : nat) (acc : N) : option (nat * N * string) :=
  match s with
  | EmptyString => Some (off, acc, s)
  | String c s' =>
      match hex_val c with
      | None => Some (off, acc, s)
      | Some v =>
          let acc' := (N.shiftl acc 4 + v)%N in
          if (3 <? off)%nat then None
          else if (65535 <? acc')%N then None
          else hexgroup s' (S off) acc'
      end
  end.

(** The outer loop of [parseIPv6], one iteration per group; [ip] holds the
    groups read so far (the byte index [i] of the source is twice its
    length), [ellipsis] the group index of the [::], if seen.  Returns the
    groups, the ellipsis and the unread rest. *)
Fixpoint parseIPv6_loop (fuel : nat) (s : string) (ip : list N) (ellipsis : option nat)
    : option (list N * option nat * string) :=
  match fuel with
  | O => Some (ip, ellipsis, s)
  | S fuel' =>
      match hexgroup s 0 0%N with
      | None => None
      | Some (off, acc, rest) =>
          if Nat.eqb off 0 then None
          else
            match rest with
            | String "." _ =>
                if (match ellipsis with None => true | Some _ => false end)
                   && negb (Nat.eqb (length ip) 6)
                then None
                else if (8 <? length ip + 2)%nat then None
                else
                  match parseIPv4Fields s with
                  | Some [a; b; c; d] =>
                      Some ((ip ++ [(a * 256 + b)%N; (c * 256 + d)%N])%list, ellipsis, EmptyString)
                  | _ => None
                  end
            | EmptyString => Some ((ip ++ [acc])%list, ellipsis, EmptyString)
            | String ":" EmptyString => None
            | String ":" (String ":" rest') =>
                match ellipsis with
                | Some _ => None
                | None =>
                    let ip' := (ip ++ [acc])%list in
                    match rest' with
                    | EmptyString => Some (ip', Some (length ip'), EmptyString)
                    | _ => parseIPv6_loop fuel' rest' ip' (Some (length ip'))
                    end
                end
            | String ":" rest' => parseIPv6_loop fuel' rest' (ip ++ [acc])%list ellipsis
            | String _ _ => None
            end
      end
  end.

(** Splits the zone off at the first percent sign. *)
Definition split_zone (s : string) : option (string * string) :=
  match Strings.cut "%"%char s with
  | None => Some (s, EmptyString)
  | Some (_, EmptyString) => None
  | Some (addr, zone) => Some (addr, zone)
  end.

Definition parseIPv6 (s_in : string) : option Addr :=
  match split_zone s_in with
  | None => None
  | Some (s, zone) =>
      let finish (r : option (list N * option nat * string)) : option Addr :=
        match r with
        | None => None
        | Some (ip, ellipsis, rest) =>
            match rest with
            | String _ _ => None
            | EmptyString =>
                if (length ip <? 8)%nat then
                  match ellipsis with
                  | None => None
                  | Some e =>
                      Some (Addr6 (firstn e ip ++ repeat 0%N (8 - length ip) ++ skipn e ip)%list zone)
                  end
                else
                  match ellipsis with
                  | Some _ => None
                  | None => Some (Addr6 ip zone)
                  end
            end
        end in
      match s with
      | String ":" (String ":" EmptyString) => Some (Addr6 (repeat 0%N 8) zone)
      | String ":" (String ":" s') => finish (parseIPv6_loop 8 s' [] (Some O))
      | _ => finish (parseIPv6_loop 8 s [] None)
      end
  end.

(** [ParseAddr]: the first dot, colon or percent sign decides the family. *)
Fixpoint family (s : string) : option ascii :=
  match s with
  | EmptyString => None
  | String c s' =>
      if Ascii.eqb c "."%char || Ascii.eqb c ":"%char || Ascii.eqb c "%"%char
      then Some c else family s'
  end.

Definition ParseAddr (s : string) : option Addr :=
  match family s with
  | Some "."%char => parseIPv4 s
  | Some ":"%char => parseIPv6 s
  | _ => None
  end.

(** [Addr.Is6]: an IPv6 address, IPv4-mapped ones included. *)
Definition Is6 (ip : Addr) : bool :=
  match ip with Addr6 _ _ => true | _ => false end.

(** [Addr.Is4In6]: the groups are [0:0:0:0:0:ffff:x:y]. *)
Definition Is4In6 (ip : Addr) : bool :=
  match ip with
  | Addr6 [0; 0; 0; 0; 0; 65535; _; _]%N _ => true
  | _ => false
  end.

Definition decimal (n : N) : string :=
  DecimalString.NilZero.string_of_uint (N.to_uint n).

(** [appendHex]: lower-case hexadecimal without leading zeros. *)
Definition appendHex (n : N) : string :=
  HexadecimalString.NilZero.string_of_uint (N.to_hex_uint n).

Definition string4 (a b c d : N) : string :=
  decimal a ++ "." ++ decimal b ++ "." ++ decimal c ++ "." ++ decimal d.

(** The length of the run of zero groups that starts the list. *)
Fixpoint zero_run (g : list N) : nat :=
  match g with
  | 0%N :: g' => S (zero_run g')
  | _ => O
  end.

(** The first longest run of at least two zero groups, as start and end. *)
Fixpoint longest_zero_run (g : list N) (i : nat) (best : option (nat * nat))
    : option (nat * nat) :=
  match g with
  | [] => best
  | _ :: g' =>
      let l := zero_run g in
      let best_len := match best with Some (s, e) => (e - s)%nat | None => O end in
      let best' := if (2 <=? l)%nat && (best_len <? l)%nat then Some (i, (i + l)%nat) else best in
      longest_zero_run g' (S i) best'
  end.

(** The output loop of [string6]: [i] is the index of the group at the head
    of [g]; groups inside the elided run are skipped. *)
Fixpoint string6_go (g : list N) (i : nat) (zr : option (nat * nat)) (skip : nat) : string :=
  match g with
  | [] => EmptyString
  | x :: g' =>
      match skip with
      | S k => string6_go g' (S i) zr k
      | O =>
          match zr with
          | Some (zs, ze) =>
              if Nat.eqb i zs then
                "::" ++
                (match skipn (ze - zs) g with
                 | [] => EmptyString
                 | y :: _ => appendHex y
                 end) ++ string6_go g' (S i) zr (ze - zs)
              else (if Nat.eqb i 0 then "" else ":") ++ appendHex x ++ string6_go g' (S i) zr O
          | None => (if Nat.eqb i 0 then "" else ":") ++ appendHex x ++ string6_go g' (S i) zr O
          end
      end
  end.

Definition with_zone (s zone : string) : string :=
  match zone with
  | EmptyString => s
  | _ => s ++ "%" ++ zone
  end.

Definition string6 (g : list N) (zone : string) : string :=
  with_zone (string6_go g O (longest_zero_run g O None) O) zone.

(** [Addr.String]. *)
Definition String (ip : Addr) : string :=
  match ip with
  | AddrZero => "invalid IP"
  | Addr4 a b c d => string4 a b c d
  | Addr6 g zone =>
      match g with
      | [0; 0; 0; 0; 0; 65535; x; y]%N =>
          with_zone ("::ffff:" ++ string4 (x / 256) (x mod 256) (y / 256) (y mod 256))%N zone
      | _ => string6 g zone
      end
  end.

End netip.

(** ** Go's [time.Duration]

    A duration is a signed 64-bit count of nanoseconds. *)
Module time.

Definition Second : Z := 1000000000.

(** Two's-complement wrap-around of 64-bit signed arithmetic. *)
Definition wrap64 (z : Z) : Z := (z + 2 ^ 63) mod 2 ^ 64 - 2 ^ 63.

(** [time.Duration(n) * time.Second]. *)
Definition seconds (n : Z) : Z := wrap64 (n * Second).

(** The integer nearest to [n / d], ties to the even one; [0 <= n], [0 < d]. *)
Definition round_half_even (n d : Z) : Z :=
  let q := n / d in
  let r := n mod d in
  if 2 * r <? d then q
  else if d <? 2 * r then q + 1
  else if Z.even q then q else q + 1.

(** The [float64] nearest to the rational [n / d] ([0 < d]), as a fraction
    whose denominator is a power of two: 53 bits of mantissa, round to
    nearest, ties to even.  The numbers of [Seconds] are far from the
    subnormal and the overflow range. *)
Definition float64 (n d : Z) : Z * Z :=
  if n =? 0 then (0, 1)
  else
    let a := Z.abs n in
    let e0 := Z.log2 a - Z.log2 d - 52 in
    let scaled (e : Z) : Z * Z :=
      if 0 <=? e then (a, d * 2 ^ e) else (a * 2 ^ (- e), d) in
    let e := let '(x, y) := scaled e0 in if x <? 2 ^ 52 * y then e0 - 1 else e0 in
    let '(x, y) := scaled e in
    let m := Z.sgn n * round_half_even x y in
    if 0 <=? e then (m * 2 ^ e, 1) else (m, 2 ^ (- e)).

(** [d.Seconds()]: [float64(d / Second) + float64(d % Second) / 1e9]. *)
Definition Seconds (d : Z) : Z * Z :=
  let sec := Z.quot d Second in
  let nsec := Z.rem d Second in
  let '(fs, fsd) := float64 sec 1 in
  let '(fn, fnd) := float64 nsec 1 in
  let '(q, qd) := float64 (fn * 1) (fnd * Second) in
  float64 (fs * qd + q * fsd) (fsd * qd).

(** [int(d.Seconds())]: the conversion truncates toward zero. *)
Definition whole_seconds (d : Z) : Z :=
  let '(n, den) := Seconds d in Z.quot n den.

End time.

(** ** The [libdns] record types

    [libdns.Record] is an interface with the single method [RR()].  The
    struct types that [extractValue] tells apart are constructors of their
    own; [Other] stands for [libdns.RR] itself and for every other
    implementation, which the engine only sees through [RR()]. *)
Module libdns.

Record RR : Type := mkRR {
  Name : string;
  TTL : Z;
  Type_ : string;
  Data : string
}.

Inductive RecordT : Type :=
| Address (name : string) (ttl : Z) (ip : netip.Addr)
| TXT (name : string) (ttl : Z) (text : string)
| CNAME (name : string) (ttl : Z) (target : string)
| MX (name : string) (ttl : Z) (preference : N) (target : string)
| NS (name : string) (ttl : Z) (target : string)
| Other (rr : RR).

(** [fmt.Sprintf("%d %s", preference, target)]. *)
Definition mx_data (preference : N) (target : string) : string :=
  netip.decimal preference ++ " " ++ target.

(** The method [RR()] of each record type. *)
Definition rr (r : RecordT) : RR :=
  match r with
  | Address name ttl ip =>
      mkRR name ttl (if netip.Is6 ip then "AAAA" else "A") (netip.String ip)
  | TXT name ttl text => mkRR name ttl "TXT" text
  | CNAME name ttl target => mkRR name ttl "CNAME" target
  | MX name ttl preference target => mkRR name ttl "MX" (mx_data preference target)
  | NS name ttl target => mkRR name ttl "NS" target
  | Other x => x
  end.

End libdns.

(** ** The application's data: [App], [Domain], [Record] *)

(** The struct [Record] of [app.go]; [TTL] is a Go [int]. *)
Record Rec : Type := mkRecord {
  Name : string;
  Type_ : string;
  Value : string;
  TTL : Z
}.

(** The configuration part of [App]. *)
Record App : Type := mkApp {
  OwnerID : string
}.

Definition txtPrefix : string := "_cdr.".
Definition txtHeritage : string := "caddy-dns-register".

(** [fmt.Sprintf("owner=%s,heritage=%s", a.OwnerID, txtHeritage)]. *)
Definition expectedValue (a : App) : string :=
  "owner=" ++ OwnerID a ++ ",heritage=" ++ txtHeritage.

(** ** Record codec *)

(** [makeTXTMarker]. *)
Definition makeTXTMarker (a : App) (name : string) : libdns.RecordT :=
  libdns.TXT (txtPrefix ++ name) (300 * time.Second) (expectedValue a).

(** [toLibdnsRecord]. *)
Definition toLibdnsRecord (a : App) (rec : Rec) : libdns.RecordT :=
  let ttl := time.seconds (TTL rec) in
  let ttl := if ttl =? 0 then 300 * time.Second else ttl in
  if String.eqb (Type_ rec) "A" || String.eqb (Type_ rec) "AAAA" then
    match netip.ParseAddr (Value rec) with
    | None => libdns.Other (libdns.mkRR (Name rec) ttl (Type_ rec) (Value rec))
    | Some ip => libdns.Address (Name rec) ttl ip
    end
  else if String.eqb (Type_ rec) "TXT" then libdns.TXT (Name rec) ttl (Value rec)
  else if String.eqb (Type_ rec) "CNAME" then libdns.CNAME (Name rec) ttl (Value rec)
  else libdns.Other (libdns.mkRR (Name rec) ttl (Type_ rec) (Value rec)).

(** [extractValue]. *)
Definition extractValue (a : App) (rec : libdns.RecordT) : string :=
  match rec with
  | libdns.Address _ _ ip => netip.String ip
  | libdns.TXT _ _ text => text
  | libdns.CNAME _ _ target => target
  | libdns.MX _ _ preference target => libdns.mx_data preference target
  | libdns.NS _ _ target => target
  | libdns.Other x => libdns.Data x
  end.

(** ** Ownership classification *)

(** The map key [name + ":" + type] used for both indexes. *)
Definition mkKey (name type : string) : string := name ++ ":" ++ type.

Definition recKey (rec : Rec) : string := mkKey (Name rec) (Type_ rec).

(** The double quote, byte 34. *)
Definition dquote : ascii := Eval cbv in ascii_of_nat 34.

(** A payload wrapped once in double quotes. *)
Definition quoted (s : string) : string := String dquote (s ++ String dquote "").

(** The test of the first pass of [parseOwnedRecords]: a TXT record under
    the prefix whose data is the expected payload, bare or in one pair of
    double quotes. *)
Definition isOwnMarker (a : App) (x : libdns.RR) : bool :=
  String.eqb (libdns.Type_ x) "TXT"
  && Strings.HasPrefix (libdns.Name x) txtPrefix
  && (String.eqb (libdns.Data x) (expectedValue a)
      || String.eqb (libdns.Data x) (quoted (expectedValue a))).

(** First pass: the names our markers claim, as Go's [map[string]bool]. *)
Fixpoint findMarkers (a : App) (records : list libdns.RecordT) (markers : gmap string bool)
    : gmap string bool :=
  match records with
  | [] => markers
  | rec :: rest =>
      let x := libdns.rr rec in
      if isOwnMarker a x
      then findMarkers a rest (<[Strings.TrimPrefix (libdns.Name x) txtPrefix := true]> markers)
      else findMarkers a rest markers
  end.

(** Reading a [map[string]bool]: a missing key reads as [false]. *)
Definition markerSet (markers : gmap string bool) (name : string) : bool :=
  default false (markers !! name).

(** Second pass: the records under a claimed name, markers skipped. *)
Fixpoint collectOwned (a : App) (markers : gmap string bool) (records : list libdns.RecordT)
    (owned : gmap string Rec) : gmap string Rec :=
  match records with
  | [] => owned
  | rec :: rest =>
      let x := libdns.rr rec in
      if Strings.HasPrefix (libdns.Name x) txtPrefix then collectOwned a markers rest owned
      else if markerSet markers (libdns.Name x) then
        collectOwned a markers rest
          (<[mkKey (libdns.Name x) (libdns.Type_ x) :=
               mkRecord (libdns.Name x) (libdns.Type_ x) (extractValue a rec)
                        (time.whole_seconds (libdns.TTL x))]> owned)
      else collectOwned a markers rest owned
  end.

(** [parseOwnedRecords]. *)
Definition parseOwnedRecords (a : App) (records : list libdns.RecordT) : gmap string Rec :=
  collectOwned a (findMarkers a records ∅) records ∅.

(** ** Diff *)

(** The plan: the three slices [reconcileDomain] fills. *)
Record Plan : Type := mkPlan {
  toCreate : list Rec;
  toUpdate : list Rec;
  toDelete : list string
}.

(** The desired index: later records overwrite earlier ones with the same
    key. *)
Definition buildDesired (records : list Rec) : gmap string Rec :=
  foldl (fun desired rec => <[recKey rec := rec]> desired) ∅ records.

(** The test that puts an owned, declared key into [toUpdate]. *)
Definition needsUpdate (existingRec rec : Rec) : bool :=
  negb (String.eqb (Value existingRec) (Value rec))
  || ((0 <? TTL rec) && negb (TTL existingRec =? TTL rec)).

(** The two diff loops.  Go ranges over a map in an unspecified order; the
    embedding enumerates with [map_to_list], and the statements about the
    plan speak of membership only. *)
Definition computeDelete (owned desired : gmap string Rec) : list string :=
  omap (fun kv : string * Rec =>
          match desired !! kv.1 with None => Some kv.1 | Some _ => None end)
       (map_to_list owned).

Definition computeCreate (owned desired : gmap string Rec) : list Rec :=
  omap (fun kv : string * Rec =>
          match owned !! kv.1 with None => Some kv.2 | Some _ => None end)
       (map_to_list desired).

Definition computeUpdate (owned desired : gmap string Rec) : list Rec :=
  omap (fun kv : string * Rec =>
          match owned !! kv.1 with
          | Some existingRec => if needsUpdate existingRec kv.2 then Some kv.2 else None
          | None => None
          end)
       (map_to_list desired).

(** The diff of [reconcileDomain]: the desired index, then the two loops. *)
Definition diff (owned : gmap string Rec) (records : list Rec) : Plan :=
  let desired := buildDesired records in
  mkPlan (computeCreate owned desired) (computeUpdate owned desired)
         (computeDelete owned desired).

(** ** The provider capability interface and the apply driver *)

(** The result of a provider call: the records it returns, or an error. *)
Inductive result (A : Type) : Type :=
| Ok (x : A)
| Err (e : string).
Arguments Ok {A} x.
Arguments Err {A} e.

(** What a pass does that the outside can see: the provider calls it
    issues and the entries it logs, in order. *)
Inductive Call : Type :=
| GetCall (zone : string)
| SetCall (zone : string) (recs : list libdns.RecordT)
| AppendCall (zone : string) (recs : list libdns.RecordT)
| DeleteCall (zone : string) (recs : list libdns.RecordT).

Inductive Level : Type := Info | Warn.

(** The [zap] fields of a log entry. *)
Inductive Field : Type :=
| FString (key val : string)
| FInt (key : string) (val : Z)
| FStrings (key : string) (val : list string)
| FError (err : string).

Inductive Event : Type :=
| Called (c : Call)
| Logged (lvl : Level) (msg : string) (fields : list Field).

Section Driver.

(** The state of the provider: whatever stands behind its calls. *)
Context {St : Type}.

Definition Getter : Type := St → string → St * result (list libdns.RecordT).
Definition Writer : Type :=
  St → string → list libdns.RecordT → St * result (list libdns.RecordT).

(** [domain.provider] with the four type assertions of [reconcileDomain]
    made: an interface the provider does not implement is [None]. *)
Record Provider : Type := mkProvider {
  RecordGetter : option Getter;
  RecordSetter : option Writer;
  RecordAppender : option Writer;
  RecordDeleter : option Writer
}.

(** [Domain]; [Records] is a slice of pointers, none of them nil. *)
Record Domain : Type := mkDomain {
  Zone : string;
  Records : list Rec;
  provider : Provider
}.

Definition logDelete (rec : Rec) (res : result (list libdns.RecordT)) : Event :=
  match res with
  | Err e => Logged Warn "failed to delete record"
               [FString "name" (Name rec); FString "type" (Type_ rec); FError e]
  | Ok _ => Logged Info "deleted record"
              [FString "name" (Name rec); FString "type" (Type_ rec)]
  end.

Definition logCreate (rec : Rec) (res : result (list libdns.RecordT)) : Event :=
  match res with
  | Err e => Logged Warn "failed to create record"
               [FString "name" (Name rec); FString "type" (Type_ rec); FError e]
  | Ok _ => Logged Info "created record"
              [FString "name" (Name rec); FString "type" (Type_ rec);
               FString "value" (Value rec)]
  end.

Definition logUpdate (rec : Rec) (res : result (list libdns.RecordT)) : Event :=
  match res with
  | Err e => Logged Warn "failed to update record"
               [FString "name" (Name rec); FString "type" (Type_ rec); FError e]
  | Ok _ => Logged Info "updated record"
              [FString "name" (Name rec); FString "type" (Type_ rec);
               FString "value" (Value rec)]
  end.

(** The delete loop.  [owned[key]] is a pointer; the loop dereferences it,
    so a key missing from [owned] is a nil dereference: [None]. *)
Fixpoint applyDeletes (a : App) (deleter : Writer) (zone : string)
    (owned : gmap string Rec) (toDelete : list string) (s : St)
    : option (St * list Event) :=
  match toDelete with
  | [] => Some (s, [])
  | key :: rest =>
      if negb (Nat.eqb (length (Strings.SplitN2 key ":"%char)) 2)
      then applyDeletes a deleter zone owned rest s
      else
        match owned !! key with
        | None => None
        | Some rec =>
            let libRec := toLibdnsRecord a rec in
            let marker := makeTXTMarker a (Name rec) in
            let '(s', res) := deleter s zone [libRec; marker] in
            match applyDeletes a deleter zone owned rest s' with
            | None => None
            | Some (s'', events) =>
                Some (s'', Called (DeleteCall zone [libRec; marker])
                             :: logDelete rec res :: events)
            end
        end
  end.

(** The create loop: [SetRecords] when the provider has it, [AppendRecords]
    otherwise; calling an appender the provider lacks is a nil call: [None]. *)
Fixpoint applyCreates (a : App) (setter appender : option Writer) (zone : string)
    (toCreate : list Rec) (s : St) : option (St * list Event) :=
  match toCreate with
  | [] => Some (s, [])
  | rec :: rest =>
      let libRec := toLibdnsRecord a rec in
      let marker := makeTXTMarker a (Name rec) in
      let step :=
        match setter, appender with
        | Some set, _ =>
            Some (Called (SetCall zone [libRec; marker]), set s zone [libRec; marker])
        | None, Some app =>
            Some (Called (AppendCall zone [libRec; marker]), app s zone [libRec; marker])
        | None, None => None
        end in
      match step with
      | None => None
      | Some (call, (s', res)) =>
          match applyCreates a setter appender zone rest s' with
          | None => None
          | Some (s'', events) => Some (s'', call :: logCreate rec res :: events)
          end
      end
  end.

(** The update loop: the data record alone, through [SetRecords]. *)
Fixpoint applyUpdates (a : App) (setter : Writer) (zone : string)
    (toUpdate : list Rec) (s : St) : St * list Event :=
  match toUpdate with
  | [] => (s, [])
  | rec :: rest =>
      let libRec := toLibdnsRecord a rec in
      let '(s', res) := setter s zone [libRec] in
      let '(s'', events) := applyUpdates a setter zone rest s' in
      (s'', Called (SetCall zone [libRec]) :: logUpdate rec res :: events)
  end.

(** The entry logged before the phases. *)
Definition logPlan (zone : string) (p : Plan) : Event :=
  Logged Info "reconciling DNS records"
    [FString "zone" zone;
     FInt "create" (Z.of_nat (length (toCreate p)));
     FInt "update" (Z.of_nat (length (toUpdate p)));
     FInt "delete" (Z.of_nat (length (toDelete p)));
     FStrings "create_records" (recKey <$> toCreate p);
     FStrings "update_records" (recKey <$> toUpdate p);
     FStrings "delete_records" (toDelete p)].

Definition deletePhase (a : App) (domain : Domain) (owned : gmap string Rec)
    (p : Plan) (s : St) : option (St * list Event) :=
  match RecordDeleter (provider domain) with
  | Some deleter =>
      if (0 <? length (toDelete p))%nat
      then applyDeletes a deleter (Zone domain) owned (toDelete p) s
      else Some (s, [])
  | None => Some (s, [])
  end.

Definition createPhase (a : App) (domain : Domain) (p : Plan) (s : St)
    : option (St * list Event) :=
  if (0 <? length (toCreate p))%nat
  then applyCreates a (RecordSetter (provider domain)) (RecordAppender (provider domain))
         (Zone domain) (toCreate p) s
  else Some (s, []).

Definition updatePhase (a : App) (domain : Domain) (p : Plan) (s : St)
    : St * list Event :=
  match RecordSetter (provider domain) with
  | Some setter =>
      if (0 <? length (toUpdate p))%nat
      then applyUpdates a setter (Zone domain) (toUpdate p) s
      else (s, [])
  | None => (s, [])
  end.

(** The three apply phases of [reconcileDomain], for a plan [p]. *)
Definition applyPlan (a : App) (domain : Domain) (owned : gmap string Rec)
    (p : Plan) (s : St) : option (St * list Event) :=
  match deletePhase a domain owned p s with
  | None => None
  | Some (s1, deleted) =>
      match createPhase a domain p s1 with
      | None => None
      | Some (s2, created) =>
          let '(s3, updated) := updatePhase a domain p s2 in
          Some (s3, deleted ++ created ++ updated)%list
      end
  end.

(** [reconcileDomain]: the final provider state, the calls and log entries
    in order, and the error returned ([None] for [nil]).  The outer [option]
    is [None] when the pass panics. *)
Definition reconcileDomain (a : App) (domain : Domain) (s : St)
    : option (St * list Event * option string) :=
  match RecordGetter (provider domain) with
  | None => Some (s, [], Some "provider does not implement RecordGetter")
  | Some getter =>
      match RecordSetter (provider domain), RecordAppender (provider domain) with
      | None, None =>
          Some (s, [], Some "provider does not implement RecordSetter or RecordAppender")
      | _, _ =>
          let '(s0, res) := getter s (Zone domain) in
          match res with
          | Err e =>
              Some (s0, [Called (GetCall (Zone domain))],
                    Some ("getting existing records: " ++ e))
          | Ok existing =>
              let owned := parseOwnedRecords a existing in
              let p := diff owned (Records domain) in
              match applyPlan a domain owned p s0 with
              | None => None
              | Some (s', events) =>
                  Some (s', Called (GetCall (Zone domain))
                              :: logPlan (Zone domain) p :: events, None)
              end
          end
      end
  end.

End Driver.

Arguments Provider : clear implicits.
Arguments Domain : clear implicits.

(** ** A provider that applies what it is asked

    The zone is the list of its records.  The calls follow the contract of
    the [libdns] interfaces: [GetRecords] returns the zone; [SetRecords]
    leaves, for each (name, type) pair of its input, the input records as
    the only records of that pair; [AppendRecords] adds its input;
    [DeleteRecords] removes the records that match an input record exactly
    (name, type, TTL and data).  No call fails. *)
Module Ideal.

Definition sameRR (x y : libdns.RR) : bool :=
  String.eqb (libdns.Name x) (libdns.Name y)
  && (libdns.TTL x =? libdns.TTL y)
  && String.eqb (libdns.Type_ x) (libdns.Type_ y)
  && String.eqb (libdns.Data x) (libdns.Data y).

Definition samePair (x y : libdns.RR) : bool :=
  String.eqb (libdns.Name x) (libdns.Name y)
  && String.eqb (libdns.Type_ x) (libdns.Type_ y).

Definition matchesAny (test : libdns.RR → libdns.RR → bool)
    (recs : list libdns.RecordT) (z : libdns.RecordT) : bool :=
  existsb (fun r => test (libdns.rr z) (libdns.rr r)) recs.

Definition keep (test : libdns.RR → libdns.RR → bool)
    (recs zone : list libdns.RecordT) : list libdns.RecordT :=
  filter (fun z => matchesAny test recs z = false) zone.

Definition GetRecords : @Getter (list libdns.RecordT) :=
  fun zone _ => (zone, Ok zone).

Definition SetRecords : @Writer (list libdns.RecordT) :=
  fun zone _ recs => ((keep samePair recs zone ++ recs)%list, Ok recs).

Definition AppendRecords : @Writer (list libdns.RecordT) :=
  fun zone _ recs => ((zone ++ recs)%list, Ok recs).

Definition DeleteRecords : @Writer (list libdns.RecordT) :=
  fun zone _ recs =>
    (keep sameRR recs zone,
     Ok (filter (fun z => matchesAny sameRR recs z = true) zone)).

(** The provider with the optional interfaces it is said to implement. *)
Definition provider (hasSetter hasAppender hasDeleter : bool)
    : Provider (list libdns.RecordT) :=
  mkProvider (Some GetRecords)
             (if hasSetter then Some SetRecords else None)
             (if hasAppender then Some AppendRecords else None)
             (if hasDeleter then Some DeleteRecords else None).

End Ideal.

(** ** Provisioning and start-up *)

(** What [Provision] and [Start] add to the trace of the passes: the debug
    entry for a loaded provider and the error entry for a failed pass. *)
Inductive AppEvent : Type :=
| InPass (e : Event)
| LoadedProvider (zone providerType : string)
| FailedDomain (zone err : string).

Section Lifecycle.

Context {St : Type}.

(** [ctx.LoadModule(domain, "DNSProviderRaw")], a function of the raw
    provider configuration: the loaded provider, already seen through the
    type assertions of [reconcileDomain], with the name of its Go type, or
    an error. *)
Definition Loader : Type := string → result (@Provider St * string).

(** The loop of [Provision] over the domains, each given with its
    [DNSProviderRaw]: the domains provisioned before the loop returned, the
    entries logged, and the error. *)
Fixpoint provisionDomains (load : Loader) (domains : list (string * @Domain St))
    : list (@Domain St) * list AppEvent * option string :=
  match domains with
  | [] => ([], [], None)
  | (raw, domain) :: rest =>
      if Nat.eqb (String.length raw) 0 then
        ([], [], Some ("domain " ++ Zone domain ++ ": dns_provider is required"))
      else
        match load raw with
        | Err e =>
            ([], [], Some ("domain " ++ Zone domain ++ ": loading DNS provider: " ++ e))
        | Ok (val, type) =>
            let '(done, logged, err) := provisionDomains load rest in
            (mkDomain (Zone domain) (Records domain) val :: done,
             LoadedProvider (Zone domain) type :: logged, err)
        end
  end.

(** [Provision]: the owner ID defaults to ["caddy"], then the providers
    are loaded. *)
Definition Provision (a : App) (load : Loader) (domains : list (string * @Domain St))
    : App * list (@Domain St) * list AppEvent * option string :=
  let a' := if String.eqb (OwnerID a) "" then mkApp "caddy" else a in
  let '(done, logged, err) := provisionDomains load domains in
  (a', done, logged, err).

(** [Start]: one pass per domain, in order; the error of a pass is logged
    and the loop goes on.  [Start] itself returns [nil]; the outer [option]
    is [None] when a pass panics. *)
Fixpoint Start (a : App) (domains : list (@Domain St)) (s : St)
    : option (St * list AppEvent) :=
  match domains with
  | [] => Some (s, [])
  | domain :: rest =>
      match reconcileDomain a domain s with
      | None => None
      | Some (s', events, err) =>
          match Start a rest s' with
          | None => None
          | Some (s'', later) =>
              Some (s'',
                    ((InPass <$> events)
                     ++ match err with
                        | Some e => [FailedDomain (Zone domain) e]
                        | None => []
                        end
                     ++ later)%list)
          end
      end
  end.

End Lifecycle.

(** * The vocabulary of the statements *)

(** A record type that holds no colon, as every DNS record type. *)
Definition colon_free (s : string) : Prop := Strings.cut ":"%char s = None.

(** The [Record] that the second pass builds from a provider record. *)
Definition project (a : App) (rec : libdns.RecordT) : Rec :=
  let x := libdns.rr rec in
  mkRecord (libdns.Name x) (libdns.Type_ x) (extractValue a rec)
           (time.whole_seconds (libdns.TTL x)).

(** The key under which the second pass files a provider record. *)
Definition lkey (rec : libdns.RecordT) : string :=
  mkKey (libdns.Name (libdns.rr rec)) (libdns.Type_ (libdns.rr rec)).

(** The snapshot holds a valid marker of this instance for [name]. *)
Definition hasOwnMarker (a : App) (records : list libdns.RecordT) (name : string) : Prop :=
  ∃ m, m ∈ records ∧ isOwnMarker a (libdns.rr m) = true
       ∧ libdns.Name (libdns.rr m) = txtPrefix ++ name.

(** A provider record is claimed when it is no marker and its name is in
    the marker set. *)
Definition claimed (markers : gmap string bool) (rec : libdns.RecordT) : bool :=
  negb (Strings.HasPrefix (libdns.Name (libdns.rr rec)) txtPrefix)
  && markerSet markers (libdns.Name (libdns.rr rec)).

(** A value is syntactically valid for its kind: an A value parses as an
    IPv4 address, an AAAA value as an IPv6 address; a CNAME target and a
    TXT payload are any string. *)
Definition validValue (r : Rec) : bool :=
  if String.eqb (Type_ r) "A" then
    match netip.ParseAddr (Value r) with Some ip => negb (netip.Is6 ip) | None => false end
  else if String.eqb (Type_ r) "AAAA" then
    match netip.ParseAddr (Value r) with Some ip => netip.Is6 ip | None => false end
  else String.eqb (Type_ r) "CNAME" || String.eqb (Type_ r) "TXT".

(** The instance and the snapshot of [TestParseOwnedRecords]. *)
Definition testApp : App := mkApp "test-caddy".

Definition testRecords : list libdns.RecordT :=
  [ libdns.TXT "_cdr.www" (300 * time.Second) "owner=test-caddy,heritage=caddy-dns-register";
    libdns.Address "www" (300 * time.Second) (netip.Addr4 192 168 1 100);
    libdns.TXT "_cdr.api" (300 * time.Second) "owner=other-caddy,heritage=caddy-dns-register";
    libdns.Address "api" (300 * time.Second) (netip.Addr4 192 168 1 101);
    libdns.Address "manual" (300 * time.Second) (netip.Addr4 192 168 1 200) ].

(** The same snapshot with one more owned record, [old]. *)
Definition busyRecords : list libdns.RecordT :=
  (testRecords
   ++ [ libdns.TXT "_cdr.old" (300 * time.Second)
          "owner=test-caddy,heritage=caddy-dns-register";
        libdns.Address "old" (300 * time.Second) (netip.Addr4 10 0 0 9) ])%list.

(** A marker for [www], the A record it was written for, and a TXT record
    created by hand at the same name. *)
Definition sharedNameRecords : list libdns.RecordT :=
  [ libdns.TXT "_cdr.www" (300 * time.Second) "owner=test-caddy,heritage=caddy-dns-register";
    libdns.Address "www" (300 * time.Second) (netip.Addr4 192 168 1 100);
    libdns.TXT "www" (3600 * time.Second) "added by hand" ].

(** What one item of a phase leaves in the trace: the provider call for
    it, then one log entry with its outcome. *)
Definition deleteReport (a : App) (zone : string) (owned : gmap string Rec)
    (key : string) (chunk : list Event) : Prop :=
  ∃ rec res,
    owned !! key = Some rec
    ∧ chunk = [Called (DeleteCall zone [toLibdnsRecord a rec; makeTXTMarker a (Name rec)]);
               logDelete rec res].

Definition createReport (a : App) (hasSetter : bool) (zone : string)
    (rec : Rec) (chunk : list Event) : Prop :=
  ∃ res,
    chunk = [Called ((if hasSetter then SetCall else AppendCall) zone
                       [toLibdnsRecord a rec; makeTXTMarker a (Name rec)]);
             logCreate rec res].

Definition updateReport (a : App) (zone : string) (rec : Rec) (chunk : list Event) : Prop :=
  ∃ res, chunk = [Called (SetCall zone [toLibdnsRecord a rec]); logUpdate rec res].

(** The provider calls of the three phases.  [DeleteRecords] is called in
    the delete phase only and [AppendRecords] in the create phase only; a
    create calls [SetRecords] with the record and its marker, an update with
    the record alone. *)
Definition isDeleteCall (e : Event) : bool :=
  match e with Called (DeleteCall _ _) => true | _ => false end.

Definition isCreateCall (e : Event) : bool :=
  match e with
  | Called (AppendCall _ _) => true
  | Called (SetCall _ [_; _]) => true
  | _ => false
  end.

Definition isUpdateCall (e : Event) : bool :=
  match e with Called (SetCall _ [_]) => true | _ => false end.

(** The zone after each kind of call of the provider. *)
Definition setZ (recs zone : list libdns.RecordT) : list libdns.RecordT :=
  (Ideal.keep Ideal.samePair recs zone ++ recs)%list.

Definition delZ (recs zone : list libdns.RecordT) : list libdns.RecordT :=
  Ideal.keep Ideal.sameRR recs zone.

(** The zone after the delete loop, the create loop and the update loop. *)
Fixpoint deletesZ (a : App) (owned : gmap string Rec) (keys : list string)
    (zone : list libdns.RecordT) : list libdns.RecordT :=
  match keys with
  | [] => zone
  | key :: rest =>
      match owned !! key with
      | Some rec =>
          deletesZ a owned rest
            (delZ [toLibdnsRecord a rec; makeTXTMarker a (Name rec)] zone)
      | None => zone
      end
  end.

(** A write of the create phase carries the marker, one of the update
    phase does not. *)
Definition written (a : App) (w : Rec * bool) : list libdns.RecordT :=
  toLibdnsRecord a w.1 :: (if w.2 then [makeTXTMarker a (Name w.1)] else []).

Fixpoint writesZ (a : App) (ws : list (Rec * bool)) (zone : list libdns.RecordT)
    : list libdns.RecordT :=
  match ws with
  | [] => zone
  | w :: rest => writesZ a rest (setZ (written a w) zone)
  end.

Definition passZ (a : App) (owned : gmap string Rec) (p : Plan)
    (zone : list libdns.RecordT) : list libdns.RecordT :=
  writesZ a ((fun d => (d, false)) <$> toUpdate p)
    (writesZ a ((fun d => (d, true)) <$> toCreate p)
       (deletesZ a owned (toDelete p) zone)).

(** The records of a zone under one key, in zone order. *)
Definition recsAt (k : string) (Z : list libdns.RecordT) : list libdns.RecordT :=
  filter (fun z => lkey z = k) Z.

(** A declared record comes back from the codec as declared: with its
    type, its value, and its TTL when that is positive. *)
Definition roundTrips (a : App) (d : Rec) : Prop :=
  libdns.Type_ (libdns.rr (toLibdnsRecord a d)) = Type_ d
  ∧ extractValue a (toLibdnsRecord a d) = Value d
  ∧ (0 < TTL d → time.whole_seconds (libdns.TTL (libdns.rr (toLibdnsRecord a d))) = TTL d).

(** What the idempotence theorem asks of a declared record. *)
Definition declarable (a : App) (d : Rec) : Prop :=
  Strings.HasPrefix (Name d) txtPrefix = false
  ∧ colon_free (Type_ d)
  ∧ roundTrips a d.

(** A write of the plan: the declared record of its key, and declarable. *)
Definition goodWrite (a : App) (D : list Rec) (w : Rec * bool) : Prop :=
  buildDesired D !! recKey w.1 = Some w.1 ∧ declarable a w.1.

(** A zone record that no delete request names, neither as data record nor
    as marker. *)
Definition untouched (owned : gmap string Rec) (keys : list string)
    (z : libdns.RecordT) : Prop :=
  ∀ key rec, key ∈ keys → owned !! key = Some rec →
    libdns.Name (libdns.rr z) ≠ Name rec
    ∧ libdns.Name (libdns.rr z) ≠ txtPrefix ++ Name rec.

(** The markers of this instance in the zone are in the form in which
    [makeTXTMarker] writes them. *)
Definition markersAsWritten (a : App) (Z : list libdns.RecordT) : Prop :=
  ∀ z, z ∈ Z → isOwnMarker a (libdns.rr z) = true →
    libdns.rr z
    = libdns.rr (makeTXTMarker a (Strings.TrimPrefix (libdns.Name (libdns.rr z)) txtPrefix)).

(** Two plans with the same members, in whatever order. *)
Definition samePlan (p q : Plan) : Prop :=
  (∀ d, d ∈ toCreate p ↔ d ∈ toCreate q)
  ∧ (∀ d, d ∈ toUpdate p ↔ d ∈ toUpdate q)
  ∧ (∀ k, k ∈ toDelete p ↔ k ∈ toDelete q).

(** The octets read so far, each followed by its dot. *)
Fixpoint dotted (fields : list N) : string :=
  match fields with
  | [] => ""
  | f :: rest => netip.decimal f ++ "." ++ dotted rest
  end.

(** The ten digits. *)
Definition digit_chars : list ascii := ascii_of_N <$> (N.of_nat <$> seq 48 10).

(** Appending a digit to a number that is not zero appends it to its
    decimal text; checked on every octet prefix and every digit. *)
Definition digit_step_ok (v : N) (c : ascii) : bool :=
  String.eqb (netip.decimal (v * 10 + netip.digit_val c))
             (if (v =? 0)%N then String c "" else netip.decimal v ++ String c "").

(** The state of the scan: no digit of the current octet read exactly at
    the start and after a dot; an octet that reads zero has one digit. *)
Definition scanState (val : N) (digLen : nat) (first prevdot : bool) : Prop :=
  (digLen = O ↔ first = true ∨ prevdot = true)
  ∧ (digLen = O → val = 0%N)
  ∧ (val = 0%N → (digLen ≤ 1)%nat).

(** The log entry that reports the result of a provider write for a
    record: on success an entry at level info, ["deleted record"],
    ["created record"] or ["updated record"]; on failure an entry at level
    warn, ["failed to ... record"], with the error the provider returned.
    Either names the record. *)
Definition reportsOutcome (verb : string) (rec : Rec)
    (res : result (list libdns.RecordT)) (entry : Event) : Prop :=
  match res with
  | Ok _ =>
      ∃ fields, entry = Logged Info (verb ++ "d record") fields
                ∧ FString "name" (Name rec) ∈ fields
                ∧ FString "type" (Type_ rec) ∈ fields
  | Err e =>
      ∃ fields, entry = Logged Warn ("failed to " ++ verb ++ " record") fields
                ∧ FString "name" (Name rec) ∈ fields
                ∧ FString "type" (Type_ rec) ∈ fields
                ∧ FError e ∈ fields
  end.

(** One item of a phase, run in provider state [s]: the write is called on
    [s], leaves the provider in [s1] with a result, and the entry logged
    reports that result. *)
Definition deleteOutcome {St : Type} (a : App) (deleter : @Writer St) (zone : string)
    (owned : gmap string Rec) (key : string) (s s1 : St) (call entry : Event) : Prop :=
  ∃ rec res,
    owned !! key = Some rec
    ∧ deleter s zone [toLibdnsRecord a rec; makeTXTMarker a (Name rec)] = (s1, res)
    ∧ call = Called (DeleteCall zone [toLibdnsRecord a rec; makeTXTMarker a (Name rec)])
    ∧ reportsOutcome "delete" rec res entry.

Definition createOutcome {St : Type} (a : App)
    (request : string → list libdns.RecordT → Call) (writer : @Writer St) (zone : string)
    (rec : Rec) (s s1 : St) (call entry : Event) : Prop :=
  ∃ res,
    writer s zone [toLibdnsRecord a rec; makeTXTMarker a (Name rec)] = (s1, res)
    ∧ call = Called (request zone [toLibdnsRecord a rec; makeTXTMarker a (Name rec)])
    ∧ reportsOutcome "create" rec res entry.

Definition updateOutcome {St : Type} (a : App) (setter : @Writer St) (zone : string)
    (rec : Rec) (s s1 : St) (call entry : Event) : Prop :=
  ∃ res,
    setter s zone [toLibdnsRecord a rec] = (s1, res)
    ∧ call = Called (SetCall zone [toLibdnsRecord a rec])
    ∧ reportsOutcome "update" rec res entry.

(** The trace of a phase over its items, from provider state [s] to [s']:
    for each item in order one call and, right after it, one entry, the
    next item starting in the state the call left. *)
Inductive phase {St X : Type} (outcome : X → St → St → Event → Event → Prop)
    : list X → St → St → list Event → Prop :=
| phase_done (s : St) : phase outcome [] s s []
| phase_item (x : X) (rest : list X) (s s1 s' : St) (call entry : Event)
    (events : list Event) :
    outcome x s s1 call entry →
    phase outcome rest s1 s' events →
    phase outcome (x :: rest) s s' (call :: entry :: events).

(** A provider that serves reads and refuses every write. *)
Definition readOnlyProvider : Provider (list libdns.RecordT) :=
  mkProvider (Some Ideal.GetRecords)
             (Some (fun zone _ _ => (zone, Err "zone is read-only")))
             None
             (Some (fun zone _ _ => (zone, Err "zone is read-only"))).

(** A domain whose provider passes the capability checks of a pass. *)
Definition capable {St : Type} (domain : Domain St) : bool :=
  match RecordGetter (provider domain) with
  | None => false
  | Some _ =>
      match RecordSetter (provider domain), RecordAppender (provider domain) with
      | None, None => false
      | _, _ => true
      end
  end.

(** A provider that cannot reach its zone: every call fails. *)
Definition downProvider : Provider unit :=
  mkProvider (Some (fun s _ => (s, Err "connection refused")))
             (Some (fun s _ _ => (s, Err "connection refused")))
             None
             (Some (fun s _ _ => (s, Err "connection refused"))).

(** What [Provision] leaves in a domain it has provisioned: zone and
    records as configured, and the provider loaded from its raw
    configuration. *)
Definition loaded {St : Type} (load : Loader) (configured : string * Domain St)
    (domain : Domain St) : Prop :=
  Zone domain = Zone configured.2
  ∧ Records domain = Records configured.2
  ∧ ∃ type, load configured.1 = Ok (provider domain, type).

(** Why [Provision] stopped at a domain, with the error it returns. *)
Definition refused {St : Type} (load : @Loader St) (configured : string * Domain St)
    (err : string) : Prop :=
  (configured.1 = ""
   ∧ err = "domain " ++ Zone configured.2 ++ ": dns_provider is required")
  ∨ (∃ e, load configured.1 = Err e
          ∧ err = "domain " ++ Zone configured.2 ++ ": loading DNS provider: " ++ e).

(** * Properties *)

(** ** Diff *)

Lemma buildDesired_snoc (D : list Rec) (r : Rec) :
  buildDesired (D ++ [r]) = <[recKey r := r]> (buildDesired D).
Proof. unfold buildDesired. by rewrite foldl_app. Qed.

(** The declared index holds, under each key, the last declared record
    with that key. *)
Lemma buildDesired_lookup (D : list Rec) (k : string) :
  buildDesired D !! k = last (filter (fun r => recKey r = k) D).
Proof.
  induction D as [|r D IH] using rev_ind; [done|].
  rewrite buildDesired_snoc, filter_app, filter_cons, filter_nil.
  destruct (decide (recKey r = k)) as [->|Hne].
  - by rewrite lookup_insert_eq, last_snoc.
  - by rewrite lookup_insert_ne, app_nil_r.
Qed.

Lemma buildDesired_key (D : list Rec) (k : string) (r : Rec) :
  buildDesired D !! k = Some r → recKey r = k ∧ r ∈ D.
Proof.
  rewrite buildDesired_lookup. intros H.
  assert (r ∈ filter (fun r => recKey r = k) D) as Hin.
  { destruct (filter _ D) as [|x l] using rev_ind; [done|].
    rewrite last_snoc in H. injection H as ->. set_solver. }
  by apply list_elem_of_filter in Hin.
Qed.

Lemma buildDesired_is_Some (D : list Rec) (r : Rec) :
  r ∈ D → is_Some (buildDesired D !! recKey r).
Proof.
  intros Hin. rewrite buildDesired_lookup.
  assert (r ∈ filter (fun r' => recKey r' = recKey r) D) as Hf
    by (by apply list_elem_of_filter).
  destruct (filter _ D) as [|x l] using rev_ind.
  - by apply elem_of_nil in Hf.
  - rewrite last_snoc. eauto.
Qed.

Lemma needsUpdate_spec (o r : Rec) :
  needsUpdate o r = true ↔ Value o ≠ Value r ∨ (0 < TTL r ∧ TTL o ≠ TTL r).
Proof.
  unfold needsUpdate.
  rewrite orb_true_iff, andb_true_iff, !negb_true_iff, Z.ltb_lt, Z.eqb_neq.
  by rewrite String.eqb_neq.
Qed.

Lemma elem_of_computeDelete (O desired : gmap string Rec) (k : string) :
  k ∈ computeDelete O desired ↔ is_Some (O !! k) ∧ desired !! k = None.
Proof.
  unfold computeDelete. rewrite list_elem_of_omap. split.
  - intros [[k' o] [Hin Hsome]]. apply elem_of_map_to_list in Hin. simpl in *.
    destruct (desired !! k') eqn:E; [done|]. injection Hsome as <-. eauto.
  - intros [[o Ho] Hd]. exists (k, o). split; [by apply elem_of_map_to_list|].
    simpl. by rewrite Hd.
Qed.

Lemma elem_of_computeCreate (O : gmap string Rec) (D : list Rec) (r : Rec) :
  r ∈ computeCreate O (buildDesired D)
  ↔ buildDesired D !! recKey r = Some r ∧ O !! recKey r = None.
Proof.
  unfold computeCreate. rewrite list_elem_of_omap. split.
  - intros [[k r'] [Hin Hsome]]. apply elem_of_map_to_list in Hin. simpl in *.
    destruct (O !! k) eqn:E; [done|]. injection Hsome as <-.
    destruct (buildDesired_key _ _ _ Hin) as [<- _]. done.
  - intros [Hd Ho]. exists (recKey r, r). split; [by apply elem_of_map_to_list|].
    simpl. by rewrite Ho.
Qed.

Lemma elem_of_computeUpdate (O : gmap string Rec) (D : list Rec) (r : Rec) :
  r ∈ computeUpdate O (buildDesired D)
  ↔ buildDesired D !! recKey r = Some r
    ∧ ∃ o, O !! recKey r = Some o ∧ needsUpdate o r = true.
Proof.
  unfold computeUpdate. rewrite list_elem_of_omap. split.
  - intros [[k r'] [Hin Hsome]]. apply elem_of_map_to_list in Hin. simpl in *.
    destruct (O !! k) as [o|] eqn:E; [|done].
    destruct (needsUpdate o r') eqn:Hn; [|done]. injection Hsome as <-.
    destruct (buildDesired_key _ _ _ Hin) as [<- _]. eauto.
  - intros [Hd (o & Ho & Hn)]. exists (recKey r, r).
    split; [by apply elem_of_map_to_list|]. simpl. by rewrite Ho, Hn.
Qed.

Lemma NoDup_omap_fst {A B} (f : string * A → option B) (g : B → string)
    (l : list (string * A)) :
  (∀ x y, x ∈ l → f x = Some y → g y = x.1) → NoDup l.*1 → NoDup (g <$> omap f l).
Proof.
  induction l as [|x l IH]; simpl; [constructor|].
  intros Hfg. rewrite NoDup_cons. intros [Hx Hl].
  assert (NoDup (g <$> omap f l)) as IH'.
  { apply IH; [|done]. intros x' y' Hin. apply Hfg. by right. }
  destruct (f x) as [y|] eqn:E; simpl; [|done].
  apply NoDup_cons. split; [|done].
  intros Hin. apply Hx. apply list_elem_of_fmap in Hin as (y' & Hy' & Hin).
  apply list_elem_of_omap in Hin as (x' & Hx' & Hf).
  apply list_elem_of_fmap. exists x'. split; [|done].
  rewrite <- (Hfg x y), Hy'; [|by left|done]. apply Hfg; [by right|done].
Qed.

(** A key in both indexes with equal values, whose declared TTL is unset
    or equal to the owned one, is in none of the three lists. *)
Lemma diff_no_op (O : gmap string Rec) (D : list Rec) (k : string) (o r : Rec) :
  O !! k = Some o → buildDesired D !! k = Some r →
  Value o = Value r → TTL r ≤ 0 ∨ TTL o = TTL r →
  (k ∉ toDelete (diff O D))
  ∧ (k ∉ recKey <$> toCreate (diff O D))
  ∧ (k ∉ recKey <$> toUpdate (diff O D)).
Proof.
  intros Ho Hr Hv Httl. unfold diff. simpl. split; [|split].
  - intros [_ Hnone]%elem_of_computeDelete. congruence.
  - intros (r' & -> & [_ Hnone]%elem_of_computeCreate)%list_elem_of_fmap. congruence.
  - intros (r' & -> & [Hr' (o' & Ho' & Hn)]%elem_of_computeUpdate)%list_elem_of_fmap.
    assert (r' = r) as -> by congruence. assert (o' = o) as -> by congruence.
    apply needsUpdate_spec in Hn as [Hn|[Hpos Hn]]; [done|]. destruct Httl; [lia|done].
Qed.

(** C1 (as amended).  For every owned index [O] and declared sequence [D],
    with the declared index holding the last record of each key:
    [toDelete] is the set of keys of [O] missing from the declared index;
    [toCreate] is the set of declared keys missing from [O]; [toUpdate] is
    the set of keys in both whose values differ or whose declared TTL is
    strictly positive and differs from the owned TTL.  A key in both with
    equal values, whose declared TTL is zero or negative or equal to the
    owned one, is in no list.  The three lists hold no key twice, and the
    records planned are the declared ones. *)
Theorem diff_correct (O : gmap string Rec) (D : list Rec) :
  let desired := buildDesired D in
  let p := diff O D in
  (∀ k, desired !! k = last (filter (fun r => recKey r = k) D))
  ∧ (∀ k, k ∈ toDelete p ↔ is_Some (O !! k) ∧ desired !! k = None)
  ∧ (∀ k, k ∈ recKey <$> toCreate p ↔ is_Some (desired !! k) ∧ O !! k = None)
  ∧ (∀ k, k ∈ recKey <$> toUpdate p ↔
          ∃ o r, O !! k = Some o ∧ desired !! k = Some r
                 ∧ (Value o ≠ Value r ∨ (0 < TTL r ∧ TTL o ≠ TTL r)))
  ∧ (∀ k o r, O !! k = Some o → desired !! k = Some r →
              Value o = Value r → TTL r ≤ 0 ∨ TTL o = TTL r →
              (k ∉ toDelete p) ∧ (k ∉ recKey <$> toCreate p)
              ∧ (k ∉ recKey <$> toUpdate p))
  ∧ (∀ r, r ∈ (toCreate p ++ toUpdate p)%list → desired !! recKey r = Some r)
  ∧ NoDup (toDelete p) ∧ NoDup (recKey <$> toCreate p) ∧ NoDup (recKey <$> toUpdate p).
Proof.
  intros desired p. subst desired p.
  assert (∀ k o r, O !! k = Some o → buildDesired D !! k = Some r →
                   Value o = Value r → TTL r ≤ 0 ∨ TTL o = TTL r →
                   (k ∉ toDelete (diff O D)) ∧ (k ∉ recKey <$> toCreate (diff O D))
                   ∧ (k ∉ recKey <$> toUpdate (diff O D))) as Hnoop
    by apply diff_no_op.
  revert Hnoop. unfold diff. simpl. intros Hnoop.
  split; [apply buildDesired_lookup|].
  split; [apply elem_of_computeDelete|].
  split.
  { intros k. rewrite list_elem_of_fmap. split.
    - intros (r & -> & Hr). apply elem_of_computeCreate in Hr as [Hd Ho]. eauto.
    - intros [[r Hr] Ho]. exists r.
      destruct (buildDesired_key _ _ _ Hr) as [<- _].
      split; [done|]. by apply elem_of_computeCreate. }
  split.
  { intros k. rewrite list_elem_of_fmap. split.
    - intros (r & -> & Hr). apply elem_of_computeUpdate in Hr as [Hd (o & Ho & Hn)].
      exists o, r. by rewrite <- needsUpdate_spec.
    - intros (o & r & Ho & Hr & Hn). exists r.
      destruct (buildDesired_key _ _ _ Hr) as [<- _].
      split; [done|]. apply elem_of_computeUpdate. split; [done|].
      exists o. by rewrite needsUpdate_spec. }
  split; [exact Hnoop|].
  split.
  { intros r [Hr|Hr]%elem_of_app.
    - by apply elem_of_computeCreate in Hr as [? _].
    - by apply elem_of_computeUpdate in Hr as [? _]. }
  split; [|split].
  - rewrite <- (list_fmap_id (computeDelete _ _)). unfold computeDelete.
    apply NoDup_omap_fst; [|apply NoDup_fst_map_to_list].
    intros [k o] y _; simpl. destruct (_ !! k); naive_solver.
  - unfold computeCreate. apply NoDup_omap_fst; [|apply NoDup_fst_map_to_list].
    intros [k r] y Hin%elem_of_map_to_list Hy; simpl in *.
    destruct (buildDesired_key _ _ _ Hin) as [<- _].
    destruct (O !! _); naive_solver.
  - unfold computeUpdate. apply NoDup_omap_fst; [|apply NoDup_fst_map_to_list].
    intros [k r] y Hin%elem_of_map_to_list Hy; simpl in *.
    destruct (buildDesired_key _ _ _ Hin) as [<- _].
    destruct (O !! _) as [o|]; [|done]. destruct (needsUpdate o r); naive_solver.
Qed.

(** ** Strings *)

Lemma append_nil_l (s : string) : "" ++ s = s.
Proof. reflexivity. Qed.

Lemma append_cons (c : ascii) (p s : string) : String c p ++ s = String c (p ++ s).
Proof. reflexivity. Qed.

Lemma HasPrefix_app (p s : string) : Strings.HasPrefix (p ++ s) p = true.
Proof.
  induction p as [|c p IH]; [reflexivity|].
  rewrite append_cons. simpl. by rewrite Ascii.eqb_refl.
Qed.

Lemma drop_bytes_app (p s : string) : Strings.drop_bytes (String.length p) (p ++ s) = s.
Proof. induction p as [|c p IH]; [reflexivity|]. by rewrite append_cons. Qed.

Lemma TrimPrefix_app (p s : string) : Strings.TrimPrefix (p ++ s) p = s.
Proof. unfold Strings.TrimPrefix. by rewrite HasPrefix_app, drop_bytes_app. Qed.

Lemma HasPrefix_split (s p : string) :
  Strings.HasPrefix s p = true → s = p ++ Strings.TrimPrefix s p.
Proof.
  unfold Strings.TrimPrefix. intros H. rewrite H. revert s H.
  induction p as [|c p IH]; intros s H; [reflexivity|].
  destruct s as [|d s]; [done|]. simpl in H.
  destruct (Ascii.eqb d c) eqn:E; [|done].
  apply Ascii.eqb_eq in E as ->. rewrite append_cons. simpl. f_equal. by apply IH.
Qed.

(** A key starts with the marker prefix exactly when its name does: the
    colon that ends the name is not a byte of the prefix. *)
Lemma HasPrefix_mkKey (n t : string) :
  Strings.HasPrefix (mkKey n t) txtPrefix = Strings.HasPrefix n txtPrefix.
Proof.
  unfold mkKey, txtPrefix.
  do 5 (destruct n as [|? n]; [reflexivity|]; rewrite append_cons; simpl;
        match goal with |- context [Ascii.eqb ?c ?d] => destruct (Ascii.eqb c d) end;
        [|done]).
  done.
Qed.

Lemma cut_app_sep (c : ascii) (s t : string) :
  Strings.cut c (s ++ String c t) ≠ None.
Proof.
  induction s as [|d s IH].
  - change (Strings.cut c (String c t) ≠ None). simpl. by rewrite Ascii.eqb_refl.
  - change (Strings.cut c (String d (s ++ String c t)) ≠ None). simpl.
    destruct (Ascii.eqb d c); [done|]. by destruct (Strings.cut c _) as [[??]|].
Qed.

(** Keys split back into name and type when the types hold no colon. *)
Lemma mkKey_inj (n n' t t' : string) :
  colon_free t → colon_free t' → mkKey n t = mkKey n' t' → n = n' ∧ t = t'.
Proof.
  unfold mkKey, colon_free. revert n'.
  induction n as [|c n IH]; intros [|c' n'] Ht Ht';
    repeat first [rewrite append_nil_l | rewrite append_cons]; intros H.
  - by injection H.
  - injection H as <- ->. by destruct (cut_app_sep ":"%char n' t').
  - injection H as -> <-. by destruct (cut_app_sep ":"%char n t).
  - injection H as -> H. destruct (IH n' Ht Ht' H) as [-> ->]. done.
Qed.

(** Every key holds a colon, so [SplitN] yields two parts. *)
Lemma SplitN2_mkKey (n t : string) :
  length (Strings.SplitN2 (mkKey n t) ":"%char) = 2%nat.
Proof.
  unfold Strings.SplitN2, mkKey.
  destruct (Strings.cut ":"%char (n ++ ":" ++ t)) as [[??]|] eqn:E; [done|].
  by destruct (cut_app_sep ":"%char n t).
Qed.

(** ** Ownership classification *)

Arguments Strings.HasPrefix : simpl never.
Arguments Strings.TrimPrefix : simpl never.

(** The payload test of the first pass, spelled out. *)
Lemma isOwnMarker_spec (a : App) (x : libdns.RR) :
  isOwnMarker a x = true ↔
    libdns.Type_ x = "TXT" ∧ Strings.HasPrefix (libdns.Name x) txtPrefix = true
    ∧ (libdns.Data x = expectedValue a
       ∨ libdns.Data x = quoted (expectedValue a)).
Proof.
  unfold isOwnMarker.
  rewrite !andb_true_iff, orb_true_iff, !String.eqb_eq. tauto.
Qed.

Lemma markerSet_insert (m : gmap string bool) (k n : string) :
  markerSet (<[k := true]> m) n = true ↔ k = n ∨ markerSet m n = true.
Proof.
  unfold markerSet. destruct (decide (k = n)) as [->|Hne].
  - rewrite lookup_insert_eq. naive_solver.
  - rewrite lookup_insert_ne by done. naive_solver.
Qed.

Lemma findMarkers_spec (a : App) (records : list libdns.RecordT)
    (m0 : gmap string bool) (n : string) :
  markerSet (findMarkers a records m0) n = true
  ↔ markerSet m0 n = true ∨ hasOwnMarker a records n.
Proof.
  unfold hasOwnMarker. revert m0.
  induction records as [|rec rest IH]; intros m0; simpl.
  - split; [auto|]. intros [?|(m & Hm & _)]; [done|]. by apply elem_of_nil in Hm.
  - destruct (isOwnMarker a (libdns.rr rec)) eqn:E; rewrite IH.
    + rewrite markerSet_insert. split.
      * intros [[<-|?]|(m & Hm & ? & ?)]; [|by left|right; exists m; set_solver].
        right. exists rec. split; [set_solver|]. split; [done|].
        apply HasPrefix_split. by apply isOwnMarker_spec in E as (_ & ? & _).
      * intros [?|(m & Hm & Ho & Hn)]; [by left; right|].
        apply elem_of_cons in Hm as [->|Hm]; [|right; exists m; done].
        left; left. by rewrite Hn, TrimPrefix_app.
    + split.
      * intros [?|(m & Hm & ? & ?)]; [by left|right; exists m; set_solver].
      * intros [?|(m & Hm & Ho & Hn)]; [by left|].
        apply elem_of_cons in Hm as [->|Hm]; [congruence|right; exists m; done].
Qed.

Lemma collectOwned_snoc (a : App) (markers : gmap string bool)
    (records : list libdns.RecordT) (rec : libdns.RecordT) (owned : gmap string Rec) :
  collectOwned a markers (records ++ [rec]) owned
  = if claimed markers rec
    then <[lkey rec := project a rec]> (collectOwned a markers records owned)
    else collectOwned a markers records owned.
Proof.
  unfold claimed, lkey, project. revert owned.
  induction records as [|r rest IH]; intros owned; simpl.
  - destruct (Strings.HasPrefix (libdns.Name (libdns.rr rec)) txtPrefix); simpl; [done|].
    by destruct (markerSet markers (libdns.Name (libdns.rr rec))).
  - destruct (Strings.HasPrefix (libdns.Name (libdns.rr r)) txtPrefix); [apply IH|].
    destruct (markerSet markers (libdns.Name (libdns.rr r))); apply IH.
Qed.

(** The owned index holds, under each key, the projection of the last
    claimed record of the snapshot with that key. *)
Lemma collectOwned_lookup (a : App) (markers : gmap string bool)
    (records : list libdns.RecordT) (k : string) :
  collectOwned a markers records ∅ !! k
  = project a <$> last (filter (fun rec => claimed markers rec = true ∧ lkey rec = k) records).
Proof.
  induction records as [|rec records IH] using rev_ind; [done|].
  rewrite collectOwned_snoc, filter_app, filter_cons, filter_nil.
  destruct (claimed markers rec) eqn:E.
  - destruct (decide (lkey rec = k)) as [<-|Hne].
    + rewrite lookup_insert_eq, decide_True by done. by rewrite last_snoc.
    + rewrite lookup_insert_ne, decide_False by naive_solver. by rewrite app_nil_r.
  - rewrite decide_False by naive_solver. by rewrite app_nil_r.
Qed.

Lemma last_elem_of {A} (l : list A) (x : A) : last l = Some x → x ∈ l.
Proof.
  destruct l as [|y l] using rev_ind; [done|].
  rewrite last_snoc. intros [= ->]. set_solver.
Qed.

Lemma last_is_Some_elem {A} (l : list A) (x : A) : x ∈ l → is_Some (last l).
Proof.
  destruct l as [|y l] using rev_ind; [by intros ?%elem_of_nil|].
  rewrite last_snoc. eauto.
Qed.

(** Soundness of classification: every entry of the owned index is the
    projection of a snapshot record that is no marker and whose name a valid
    marker of this instance claims. *)
Lemma parseOwnedRecords_sound (a : App) (records : list libdns.RecordT)
    (k : string) (r : Rec) :
  parseOwnedRecords a records !! k = Some r →
  ∃ rec, rec ∈ records ∧ r = project a rec ∧ k = lkey rec
         ∧ Strings.HasPrefix (Name r) txtPrefix = false
         ∧ hasOwnMarker a records (Name r).
Proof.
  unfold parseOwnedRecords. rewrite collectOwned_lookup.
  destruct (last _) as [rec|] eqn:E; [|done]. simpl. intros [= <-].
  apply last_elem_of, list_elem_of_filter in E as [[Hc Hk] Hin].
  exists rec. split; [done|]. split; [done|]. split; [done|].
  unfold claimed in Hc. apply andb_true_iff in Hc as [Hp Hm].
  apply negb_true_iff in Hp. split; [done|].
  apply findMarkers_spec in Hm as [Hm|Hm]; [done|]. done.
Qed.

(** Completeness of classification: a snapshot record that is no marker and
    whose name is claimed has its key in the owned index, bound to the
    projection of a claimed record with the same key. *)
Lemma parseOwnedRecords_complete (a : App) (records : list libdns.RecordT)
    (rec : libdns.RecordT) :
  rec ∈ records →
  Strings.HasPrefix (libdns.Name (libdns.rr rec)) txtPrefix = false →
  hasOwnMarker a records (libdns.Name (libdns.rr rec)) →
  ∃ rec', rec' ∈ records ∧ lkey rec' = lkey rec
          ∧ parseOwnedRecords a records !! lkey rec = Some (project a rec').
Proof.
  intros Hin Hp Hm. unfold parseOwnedRecords. rewrite collectOwned_lookup.
  set (P := fun rec0 => claimed (findMarkers a records ∅) rec0 = true ∧ lkey rec0 = lkey rec).
  assert (rec ∈ filter P records) as Hf.
  { apply list_elem_of_filter. split; [|done]. split; [|done].
    unfold claimed. rewrite Hp. simpl. apply findMarkers_spec. by right. }
  destruct (last_is_Some_elem _ _ Hf) as [rec' Hl]. rewrite Hl. simpl.
  apply last_elem_of, list_elem_of_filter in Hl as [[_ Hk] Hin'].
  exists rec'. done.
Qed.

(** C3.  When every TXT record of the snapshot named ["_cdr." ++ n] carries
    a payload other than the expected string of this instance, bare or in
    one pair of double quotes, no entry of the owned index has the name [n]:
    no record of that name is in the index, whatever its type and content. *)
Theorem ownership_isolation (a : App) (snapshot : list libdns.RecordT) (n : string) :
  (∀ m, m ∈ snapshot →
        libdns.Type_ (libdns.rr m) = "TXT" →
        libdns.Name (libdns.rr m) = txtPrefix ++ n →
        libdns.Data (libdns.rr m) ≠ expectedValue a
        ∧ libdns.Data (libdns.rr m) ≠ quoted (expectedValue a)) →
  (∀ k r, parseOwnedRecords a snapshot !! k = Some r → Name r ≠ n)
  ∧ (∀ rec k, rec ∈ snapshot → libdns.Name (libdns.rr rec) = n →
              parseOwnedRecords a snapshot !! k ≠ Some (project a rec)).
Proof.
  intros Hforeign.
  assert (∀ k r, parseOwnedRecords a snapshot !! k = Some r → Name r ≠ n) as Hno.
  { intros k r Hk <-.
    apply parseOwnedRecords_sound in Hk as (_ & _ & _ & _ & _ & m & Hm & Hown & Hname).
    apply isOwnMarker_spec in Hown as (Htxt & _ & Hdata).
    destruct (Hforeign m Hm Htxt Hname) as [H1 H2].
    destruct Hdata; [by apply H1|by apply H2]. }
  split; [done|].
  intros rec k Hin Hname Hk. by apply (Hno _ _ Hk).
Qed.

(** C2 (as amended).  A snapshot record whose name no valid marker of this
    instance claims is absent from the owned index: no entry carries its
    name, and every key of [toDelete] and every record of [toUpdate]
    resolves to an owned entry of another name.  When no record type of the
    snapshot holds a colon, so that a key stands for one (name, type) pair,
    its key is no key of the index, is not in [toDelete] and is the key of
    no record of [toUpdate], and no record of [toUpdate] whose type is
    without a colon has its name.  [toCreate] is not closed to it: a
    declared record of its name is planned for creation (types without a
    colon). *)
Theorem manual_record_protection (a : App) (snapshot : list libdns.RecordT)
    (D : list Rec) (rec : libdns.RecordT) :
  rec ∈ snapshot →
  ¬ hasOwnMarker a snapshot (libdns.Name (libdns.rr rec)) →
  let n := libdns.Name (libdns.rr rec) in
  let owned := parseOwnedRecords a snapshot in
  let p := diff owned D in
  (∀ k o, owned !! k = Some o → Name o ≠ n)
  ∧ (∀ k, k ∈ toDelete p → ∃ o, owned !! k = Some o ∧ Name o ≠ n)
  ∧ (∀ u, u ∈ toUpdate p → ∃ o, owned !! recKey u = Some o ∧ Name o ≠ n)
  ∧ ((∀ x, x ∈ snapshot → colon_free (libdns.Type_ (libdns.rr x))) →
     owned !! lkey rec = None
     ∧ (lkey rec ∉ toDelete p)
     ∧ (∀ u, u ∈ toUpdate p →
             recKey u ≠ lkey rec ∧ (colon_free (Type_ u) → Name u ≠ n)))
  ∧ (∀ d, buildDesired D !! recKey d = Some d → Name d = n →
          colon_free (Type_ d) →
          (∀ x, x ∈ snapshot → colon_free (libdns.Type_ (libdns.rr x))) →
          d ∈ toCreate p).
Proof.
  intros Hin Hnone n owned p.
  assert (∀ k o, owned !! k = Some o → Name o ≠ n) as Hno.
  { intros k o Hk Hn.
    apply parseOwnedRecords_sound in Hk as (_ & _ & _ & _ & _ & Hm).
    apply Hnone. subst n. by rewrite <- Hn. }
  assert (∀ name type,
            (∀ x, x ∈ snapshot → colon_free (libdns.Type_ (libdns.rr x))) →
            colon_free type → is_Some (owned !! mkKey name type) → name ≠ n) as Hkey.
  { intros name type Hsnap Hcf [o Ho] Hn. destruct (Hno _ _ Ho).
    apply parseOwnedRecords_sound in Ho as (x & Hx & -> & Hk & _).
    apply mkKey_inj in Hk as [Hk _]; [| done | by apply Hsnap].
    simpl. congruence. }
  split; [done|]. split; [|split; [|split]].
  - intros k [[o Ho] _]%elem_of_computeDelete. eauto.
  - intros u (_ & o & Ho & _)%elem_of_computeUpdate. eauto.
  - intros Hsnap.
    assert (owned !! lkey rec = None) as Hrec.
    { destruct (owned !! lkey rec) as [o|] eqn:Ho; [|done].
      destruct (Hkey n (libdns.Type_ (libdns.rr rec)) Hsnap); [by apply Hsnap| |done].
      by exists o. }
    split; [done|]. split.
    + intros [[o Ho] _]%elem_of_computeDelete. congruence.
    + intros u (_ & o & Ho & _)%elem_of_computeUpdate. split.
      * intros Hk. rewrite Hk in Ho. congruence.
      * intros Hcf. apply (Hkey (Name u) (Type_ u) Hsnap Hcf). by exists o.
  - intros d Hd Hn Hcf Hsnap. apply elem_of_computeCreate. split; [done|].
    destruct (owned !! recKey d) as [o|] eqn:Ho; [|done].
    destruct (Hkey (Name d) (Type_ d) Hsnap Hcf); [by exists o|done].
Qed.

(** C4.  With one valid marker for a name [n] that is no marker name
    itself, every snapshot record named [n] has its key in the owned index,
    whatever its type; the index binds the key to the projection of a
    snapshot record with that key.  When the declared index lacks the key,
    the key is in [toDelete]. *)
Theorem marker_claims_all_types (a : App) (snapshot : list libdns.RecordT)
    (n : string) (rec : libdns.RecordT) :
  hasOwnMarker a snapshot n →
  rec ∈ snapshot →
  libdns.Name (libdns.rr rec) = n →
  Strings.HasPrefix n txtPrefix = false →
  let owned := parseOwnedRecords a snapshot in
  let k := mkKey n (libdns.Type_ (libdns.rr rec)) in
  (∃ rec', rec' ∈ snapshot ∧ lkey rec' = k ∧ owned !! k = Some (project a rec'))
  ∧ (∀ D, buildDesired D !! k = None → k ∈ toDelete (diff owned D)).
Proof.
  intros Hm Hin <- Hp owned k.
  destruct (parseOwnedRecords_complete a snapshot rec Hin Hp Hm) as (rec' & Hin' & Hk & Ho).
  split; [by exists rec'|].
  intros D HD. apply elem_of_computeDelete. split; [|done]. by eexists.
Qed.

(** C10.  No entry of the owned index has a name, or a key, that begins
    with ["_cdr."]; so for every snapshot, a declared record whose name
    begins with the prefix has its key in [toCreate], and not in
    [toUpdate]. *)
Theorem prefixed_names_always_created (a : App) (snapshot : list libdns.RecordT) :
  let owned := parseOwnedRecords a snapshot in
  (∀ k r, owned !! k = Some r →
          Strings.HasPrefix (Name r) txtPrefix = false
          ∧ Strings.HasPrefix k txtPrefix = false)
  ∧ (∀ (D : list Rec) (d : Rec),
        d ∈ D → Strings.HasPrefix (Name d) txtPrefix = true →
        recKey d ∈ recKey <$> toCreate (diff owned D)
        ∧ recKey d ∉ recKey <$> toUpdate (diff owned D)).
Proof.
  intros owned.
  assert (∀ k r, owned !! k = Some r →
                 Strings.HasPrefix (Name r) txtPrefix = false
                 ∧ Strings.HasPrefix k txtPrefix = false) as Hno.
  { intros k r Hk.
    apply parseOwnedRecords_sound in Hk as (x & _ & -> & -> & Hp & _).
    split; [done|]. unfold lkey. by rewrite HasPrefix_mkKey. }
  split; [done|].
  intros D d Hd Hp.
  assert (owned !! recKey d = None) as Hnone.
  { destruct (owned !! recKey d) as [o|] eqn:Ho; [|done].
    destruct (Hno _ _ Ho) as [_ Hk]. unfold recKey in Hk.
    rewrite HasPrefix_mkKey in Hk. congruence. }
  split.
  - destruct (buildDesired_is_Some D d Hd) as [r Hr].
    destruct (buildDesired_key _ _ _ Hr) as [Hk _].
    apply list_elem_of_fmap. exists r. split; [done|].
    apply elem_of_computeCreate. by rewrite Hk.
  - intros (r & Hk & Hr)%list_elem_of_fmap.
    apply elem_of_computeUpdate in Hr as (_ & o & Ho & _). congruence.
Qed.

(** ** Record codec *)

(** C9.  The marker for [recordName] is the TXT record named
    ["_cdr." ++ recordName] whose text is
    ["owner=" ++ ownerID ++ ",heritage=caddy-dns-register"], with a TTL of
    300 seconds; its [RR()] carries the same name, type TXT and that text as
    data. *)
Theorem marker_wire_format (a : App) (recordName : string) :
  makeTXTMarker a recordName
  = libdns.TXT ("_cdr." ++ recordName) (300 * 1000000000)
               ("owner=" ++ OwnerID a ++ ",heritage=caddy-dns-register")
  ∧ libdns.rr (makeTXTMarker a recordName)
    = libdns.mkRR ("_cdr." ++ recordName) (300 * time.Second) "TXT"
                  ("owner=" ++ OwnerID a ++ ",heritage=caddy-dns-register")
  ∧ time.whole_seconds (libdns.TTL (libdns.rr (makeTXTMarker a recordName))) = 300.
Proof. done. Qed.

(** The first pass of the classification recognises the marker it is given
    back, and reads the record name off it. *)
Lemma makeTXTMarker_isOwnMarker (a : App) (name : string) :
  isOwnMarker a (libdns.rr (makeTXTMarker a name)) = true
  ∧ Strings.TrimPrefix (libdns.Name (libdns.rr (makeTXTMarker a name))) txtPrefix = name.
Proof.
  split; [|apply TrimPrefix_app].
  apply isOwnMarker_spec. simpl. split; [done|]. split; [apply HasPrefix_app|by left].
Qed.

Lemma toLibdnsRecord_Name (a : App) (r : Rec) :
  libdns.Name (libdns.rr (toLibdnsRecord a r)) = Name r.
Proof.
  unfold toLibdnsRecord.
  destruct (String.eqb (Type_ r) "A" || String.eqb (Type_ r) "AAAA").
  - by destruct (netip.ParseAddr (Value r)).
  - destruct (String.eqb (Type_ r) "TXT"); [done|].
    by destruct (String.eqb (Type_ r) "CNAME").
Qed.

(** What the round trip through the codec returns as value. *)
Lemma extractValue_toLibdnsRecord (a : App) (r : Rec) :
  extractValue a (toLibdnsRecord a r)
  = if String.eqb (Type_ r) "A" || String.eqb (Type_ r) "AAAA"
    then match netip.ParseAddr (Value r) with
         | Some ip => netip.String ip
         | None => Value r
         end
    else Value r.
Proof.
  unfold toLibdnsRecord.
  destruct (String.eqb (Type_ r) "A" || String.eqb (Type_ r) "AAAA").
  - by destruct (netip.ParseAddr (Value r)).
  - destruct (String.eqb (Type_ r) "TXT"); [done|].
    by destruct (String.eqb (Type_ r) "CNAME").
Qed.

(** [int(d.Seconds())] on whole and on fractional durations; past 2^24
    seconds a fraction just below one rounds up to the next second. *)
Example whole_seconds_examples :
  time.whole_seconds (300 * time.Second) = 300
  ∧ time.whole_seconds 0 = 0
  ∧ time.whole_seconds 1500000000 = 1
  ∧ time.whole_seconds (-1500000000) = -1
  ∧ time.whole_seconds 999999999 = 0
  ∧ time.whole_seconds (16777215 * time.Second + 999999999) = 16777215
  ∧ time.whole_seconds (16777216 * time.Second + 999999999) = 16777217
  ∧ time.whole_seconds (9223372036 * time.Second) = 9223372036.
Proof. by vm_compute. Qed.

(** [ParseAddr] and [Addr.String] on the addresses of the tests and on
    addresses that are not written in canonical form. *)
Example ParseAddr_String_examples :
  netip.ParseAddr "192.168.1.100" = Some (netip.Addr4 192 168 1 100)
  ∧ netip.String <$> netip.ParseAddr "192.168.1.100" = Some "192.168.1.100"
  ∧ netip.String <$> netip.ParseAddr "2001:db8::1" = Some "2001:db8::1"
  ∧ netip.String <$> netip.ParseAddr "2001:DB8::1" = Some "2001:db8::1"
  ∧ netip.String <$> netip.ParseAddr "2001:db8:0:0:1:0:0:1" = Some "2001:db8::1:0:0:1"
  ∧ netip.String <$> netip.ParseAddr "0:0:0:0:0:0:0:1" = Some "::1"
  ∧ netip.String <$> netip.ParseAddr "::ffff:1.2.3.4" = Some "::ffff:1.2.3.4"
  ∧ netip.String <$> netip.ParseAddr "fe80::1%eth0" = Some "fe80::1%eth0"
  ∧ netip.ParseAddr "01.2.3.4" = None
  ∧ netip.ParseAddr "1.2.3" = None
  ∧ netip.ParseAddr "1:2:3:4:5:6:7:8:9" = None
  ∧ netip.ParseAddr "not-an-address" = None.
Proof. by vm_compute. Qed.

(** ** IPv4 text is canonical

    [parseIPv4] accepts a dotted quad only in the form in which
    [Addr.String] prints it. *)

Lemma append_assoc (s t u : string) : (s ++ t) ++ u = s ++ (t ++ u).
Proof.
  induction s as [|c s IH]; [reflexivity|].
  rewrite !append_cons. by rewrite IH.
Qed.

Lemma append_nil_r (s : string) : s ++ "" = s.
Proof. induction s as [|c s IH]; [reflexivity|]. rewrite append_cons. by rewrite IH. Qed.

Lemma dotted_snoc (fields : list N) (v : N) :
  dotted (fields ++ [v]) = dotted fields ++ netip.decimal v ++ ".".
Proof.
  induction fields as [|f fields IH]; simpl.
  - by rewrite append_nil_r, append_nil_l.
  - by rewrite IH, !append_assoc.
Qed.

Lemma N_in_range (n lo : N) (len : nat) :
  (lo ≤ n)%N → (n < lo + N.of_nat len)%N →
  n ∈ N.of_nat <$> seq (N.to_nat lo) len.
Proof.
  intros Hlo Hhi. apply list_elem_of_fmap. exists (N.to_nat n).
  split; [by rewrite N2Nat.id|]. apply list_elem_of_In, in_seq. lia.
Qed.

Lemma is_digit_chars (c : ascii) : netip.is_digit c = true → c ∈ digit_chars.
Proof.
  unfold netip.is_digit. intros [Hlo Hhi]%andb_true_iff.
  apply N.leb_le in Hlo, Hhi.
  apply list_elem_of_fmap. exists (N_of_ascii c).
  split; [by rewrite ascii_N_embedding|].
  apply (N_in_range _ 48 10); lia.
Qed.

Lemma digit_step_table :
  forallb (fun v => forallb (digit_step_ok v) digit_chars)
          (N.of_nat <$> seq 0 26) = true.
Proof. by vm_compute. Qed.

Lemma decimal_digit (v : N) (c : ascii) :
  netip.is_digit c = true → (v * 10 + netip.digit_val c ≤ 255)%N →
  netip.decimal (v * 10 + netip.digit_val c)
  = if (v =? 0)%N then String c "" else netip.decimal v ++ String c "".
Proof.
  intros Hc Hv. apply String.eqb_eq.
  pose proof digit_step_table as Htab. rewrite forallb_forall in Htab.
  assert (In v (N.of_nat <$> seq 0 26)) as Hin.
  { apply list_elem_of_In. apply (N_in_range v 0 26); lia. }
  specialize (Htab v Hin). rewrite forallb_forall in Htab.
  apply Htab. apply list_elem_of_In. by apply is_digit_chars.
Qed.

Lemma parseIPv4_go_canonical (s : string) (fields : list N) (val : N) (digLen : nat)
    (first prevdot : bool) (out : list N) :
  scanState val digLen first prevdot →
  (first = true → fields = []) →
  (prevdot = true → s ≠ "") →
  netip.parseIPv4_go s fields val digLen first prevdot = Some out →
  ∃ fs v, out = (fs ++ [v])%list
          ∧ dotted fs ++ netip.decimal v
            = dotted fields ++ (if Nat.eqb digLen 0 then "" else netip.decimal val) ++ s.
Proof.
  revert fields val digLen first prevdot.
  induction s as [|c s IH];
    intros fields val digLen first prevdot (Hz & Hv0 & Hlz) Hfirst Hdot; simpl.
  - destruct (length fields <? 3)%nat eqn:Hlen; [done|]. intros [= <-].
    exists fields, val. split; [done|]. rewrite append_nil_r.
    destruct digLen as [|n]; [|done].
    destruct Hz as [Hz _]. destruct (Hz eq_refl) as [->| ->].
    + rewrite Hfirst in Hlen by done. done.
    + by destruct Hdot.
  - destruct (netip.is_digit c) eqn:Hc.
    + destruct (Nat.eqb digLen 1 && (val =? 0)%N) eqn:Hlead; [done|].
      destruct (255 <? val * 10 + netip.digit_val c)%N eqn:Hbig; [done|].
      apply N.ltb_ge in Hbig.
      assert (digLen ≠ O → val ≠ 0%N) as Hnz.
      { intros Hd Hv. specialize (Hlz Hv).
        assert (digLen = 1%nat) as -> by lia. subst val. done. }
      intros Hrec. apply IH in Hrec as (fs & v & -> & Heq).
      * exists fs, v. split; [done|]. rewrite Heq. simpl. f_equal.
        rewrite (decimal_digit val c Hc Hbig).
        destruct digLen as [|n]; simpl.
        -- rewrite (Hv0 eq_refl). simpl. by rewrite append_nil_l.
        -- destruct (val =? 0)%N eqn:Hv; [apply N.eqb_eq in Hv; by destruct Hnz|].
           by rewrite append_assoc.
      * split; [split; [done|by intros [?|?]]|]. split; [done|].
        intros Hv. destruct digLen as [|n]; [lia|]. destruct Hnz; [done|lia].
      * done.
      * done.
    + destruct (Ascii.eqb c ".") eqn:Hpt; [|done]. apply Ascii.eqb_eq in Hpt as ->.
      destruct first; [done|]. destruct prevdot; [done|]. simpl.
      destruct s as [|c' s']; [done|].
      destruct (Nat.eqb (length fields) 3); [done|].
      intros Hrec. apply IH in Hrec as (fs & v & -> & Heq).
      * exists fs, v. split; [done|]. rewrite Heq, dotted_snoc. simpl.
        destruct digLen as [|n]; [destruct Hz as [Hz _]; by destruct (Hz eq_refl)|].
        simpl. by rewrite append_nil_l, !append_assoc.
      * split; [split; [by right|done]|]. split; [done|]. intros _. lia.
      * done.
      * done.
Qed.

Lemma parseIPv4_canonical (s : string) (a b c d : N) :
  netip.parseIPv4 s = Some (netip.Addr4 a b c d) →
  netip.String (netip.Addr4 a b c d) = s.
Proof.
  unfold netip.parseIPv4, netip.parseIPv4Fields.
  destruct (netip.parseIPv4_go s [] 0%N 0 true false) as [out|] eqn:E; [|done].
  apply parseIPv4_go_canonical in E as (fs & v & -> & Heq).
  - destruct fs as [|f1 [|f2 [|f3 [|f4 fs]]]]; simpl; try done.
    + intros [= <- <- <- <-]. simpl in Heq. rewrite !append_nil_l in Heq.
      rewrite <- Heq. unfold netip.string4.
      by rewrite !append_assoc, append_nil_l.
    + by destruct fs.
  - split; [split; [by left|done]|]. split; [done|]. intros _. lia.
  - done.
  - done.
Qed.

Lemma parseIPv6_Is6 (s : string) (ip : netip.Addr) :
  netip.parseIPv6 s = Some ip → netip.Is6 ip = true.
Proof.
  unfold netip.parseIPv6. intros H.
  repeat (match type of H with
          | context [match ?x with _ => _ end] => destruct x; try discriminate H
          end);
    by injection H as <-.
Qed.

(** An IPv4 address that [ParseAddr] accepts prints back as it was
    written. *)
Lemma ParseAddr_IPv4_canonical (s : string) (ip : netip.Addr) :
  netip.ParseAddr s = Some ip → netip.Is6 ip = false → netip.String ip = s.
Proof.
  unfold netip.ParseAddr. intros H Hv4.
  destruct (netip.family s) as [c|]; [|done].
  destruct (Ascii.eqb c ".") eqn:Hc.
  - apply Ascii.eqb_eq in Hc as ->.
    destruct ip as [|x y z w|g zone]; [|by apply parseIPv4_canonical|done].
    unfold netip.parseIPv4 in H.
    by destruct (netip.parseIPv4Fields s) as [[|? [|? [|? [|? [|? ?]]]]]|].
  - assert (netip.parseIPv6 s = Some ip) as H6.
    { destruct c as [[] [] [] [] [] [] [] []]; try done. }
    apply parseIPv6_Is6 in H6. congruence.
Qed.

(** C6 (as amended).  For a record of kind A, AAAA, CNAME or TXT, the value
    extracted from the provider record that the codec builds is the
    original value exactly when, for the kinds A and AAAA, the value does
    not parse as an address, or parses as an IPv4 address, or is the
    canonical text of the IPv6 address it parses to; for CNAME and TXT it
    always is. *)
Theorem codec_round_trip (a : App) (r : Rec) :
  Type_ r = "A" ∨ Type_ r = "AAAA" ∨ Type_ r = "CNAME" ∨ Type_ r = "TXT" →
  (extractValue a (toLibdnsRecord a r) = Value r
   ↔ (Type_ r = "A" ∨ Type_ r = "AAAA" →
      ∀ ip, netip.ParseAddr (Value r) = Some ip → netip.Is6 ip = true →
            netip.String ip = Value r)).
Proof.
  intros Hkind. rewrite extractValue_toLibdnsRecord.
  destruct (String.eqb (Type_ r) "A" || String.eqb (Type_ r) "AAAA") eqn:E.
  - apply orb_true_iff in E. rewrite !String.eqb_eq in E.
    destruct (netip.ParseAddr (Value r)) as [ip|] eqn:Hparse; split; try done.
    + intros H _ ip' [= <-] _. done.
    + intros H. destruct (netip.Is6 ip) eqn:H6; [by apply H|].
      by apply ParseAddr_IPv4_canonical.
  - apply orb_false_iff in E as [E1 E2]. rewrite String.eqb_neq in E1, E2.
    split; [|done]. intros _ [?|?]; done.
Qed.

(** ** Worked inputs *)

Ltac in_snapshot H :=
  repeat (apply elem_of_cons in H as [->|H]); [..|by apply elem_of_nil in H].

(** C1, the claim as stated, fails for a negative declared TTL: it is not
    zero and differs from the owned TTL, yet the key is not in [toUpdate]. *)
Lemma diff_negative_ttl_not_updated :
  let O : gmap string Rec := {[ "www:A" := mkRecord "www" "A" "192.0.2.1" 300 ]} in
  let D := [mkRecord "www" "A" "192.0.2.1" (-1)] in
  (∃ o r, O !! "www:A" = Some o ∧ buildDesired D !! "www:A" = Some r
          ∧ TTL r ≠ 0 ∧ TTL o ≠ TTL r)
  ∧ "www:A" ∉ recKey <$> toUpdate (diff O D).
Proof.
  split.
  - do 2 eexists. split; [by vm_compute|]. split; [by vm_compute|]. by simpl.
  - change (toUpdate _) with (@nil Rec). by intros ?%elem_of_nil.
Qed.

Example parseOwnedRecords_test :
  parseOwnedRecords testApp testRecords
  = {[ "www:A" := mkRecord "www" "A" "192.168.1.100" 300 ]}.
Proof. by vm_compute. Qed.

Lemma ownership_isolation_witness :
  (∀ k r, parseOwnedRecords testApp testRecords !! k = Some r → Name r ≠ "api")
  ∧ (∀ rec k, rec ∈ testRecords → libdns.Name (libdns.rr rec) = "api" →
              parseOwnedRecords testApp testRecords !! k ≠ Some (project testApp rec)).
Proof.
  apply (ownership_isolation testApp testRecords "api").
  intros m Hm Htxt Hname. in_snapshot Hm; simpl in *; try discriminate.
  split; discriminate.
Defined.

(** C2, the claim as stated, fails: a record without marker is in
    [toCreate] when the configuration declares it. *)
Lemma manual_record_in_toCreate :
  let a := mkApp "caddy" in
  let rec := libdns.Address "manual" (300 * time.Second) (netip.Addr4 10 0 0 1) in
  let snapshot := [rec] in
  let D := [mkRecord "manual" "A" "10.0.0.1" 300] in
  rec ∈ snapshot
  ∧ ¬ hasOwnMarker a snapshot "manual"
  ∧ toCreate (diff (parseOwnedRecords a snapshot) D) = [project a rec].
Proof.
  intros a rec snapshot D. split; [set_solver|]. split; [|by vm_compute].
  intros (m & Hm & Ho & _). in_snapshot Hm. by vm_compute in Ho.
Qed.

Lemma manual_record_protection_witness :
  let a := testApp in
  let rec := libdns.Address "manual" (300 * time.Second) (netip.Addr4 192 168 1 200) in
  let D := [mkRecord "www" "A" "192.168.1.100" 300] in
  let owned := parseOwnedRecords a testRecords in
  let p := diff owned D in
  (∀ k o, owned !! k = Some o → Name o ≠ "manual")
  ∧ (∀ k, k ∈ toDelete p → ∃ o, owned !! k = Some o ∧ Name o ≠ "manual")
  ∧ (∀ u, u ∈ toUpdate p → ∃ o, owned !! recKey u = Some o ∧ Name o ≠ "manual")
  ∧ ((∀ x, x ∈ testRecords → colon_free (libdns.Type_ (libdns.rr x))) →
     owned !! lkey rec = None
     ∧ (lkey rec ∉ toDelete p)
     ∧ (∀ u, u ∈ toUpdate p →
             recKey u ≠ lkey rec ∧ (colon_free (Type_ u) → Name u ≠ "manual")))
  ∧ (∀ d, buildDesired D !! recKey d = Some d → Name d = "manual" →
          colon_free (Type_ d) →
          (∀ x, x ∈ testRecords → colon_free (libdns.Type_ (libdns.rr x))) →
          d ∈ toCreate p).
Proof.
  intros a rec D.
  apply (manual_record_protection a testRecords D rec).
  - unfold testRecords, rec. set_solver.
  - intros (m & Hm & Ho & Hn). in_snapshot Hm; by vm_compute in Ho, Hn.
Defined.

Lemma marker_claims_all_types_witness :
  let owned := parseOwnedRecords testApp sharedNameRecords in
  (∃ rec', rec' ∈ sharedNameRecords ∧ lkey rec' = "www:TXT"
           ∧ owned !! "www:TXT" = Some (project testApp rec'))
  ∧ (∀ D, buildDesired D !! "www:TXT" = None → "www:TXT" ∈ toDelete (diff owned D)).
Proof.
  apply (marker_claims_all_types testApp sharedNameRecords "www"
           (libdns.TXT "www" (3600 * time.Second) "added by hand")).
  - exists (libdns.TXT "_cdr.www" (300 * time.Second)
                       "owner=test-caddy,heritage=caddy-dns-register").
    split; [unfold sharedNameRecords; set_solver|]. by vm_compute.
  - unfold sharedNameRecords. set_solver.
  - reflexivity.
  - reflexivity.
Defined.

Example hand_made_record_deleted :
  toDelete (diff (parseOwnedRecords testApp sharedNameRecords)
                 [mkRecord "www" "A" "192.168.1.100" 300])
  = ["www:TXT"].
Proof. by vm_compute. Qed.

Lemma prefixed_names_always_created_witness :
  let d := mkRecord "_cdr.www" "TXT" "hello" 300 in
  recKey d ∈ recKey <$> toCreate (diff (parseOwnedRecords testApp testRecords) [d])
  ∧ recKey d ∉ recKey <$> toUpdate (diff (parseOwnedRecords testApp testRecords) [d]).
Proof.
  intros d.
  apply (proj2 (prefixed_names_always_created testApp testRecords) [d] d).
  - set_solver.
  - reflexivity.
Defined.

(** C6, the claim as stated, fails for an IPv6 address written in upper
    case: it is a valid AAAA value, and comes back in lower case. *)
Lemma codec_round_trip_upper_case :
  let r := mkRecord "www" "AAAA" "2001:DB8::1" 300 in
  validValue r = true
  ∧ extractValue testApp (toLibdnsRecord testApp r) = "2001:db8::1"
  ∧ extractValue testApp (toLibdnsRecord testApp r) ≠ Value r.
Proof. by vm_compute. Qed.

Lemma codec_round_trip_witness :
  let r := mkRecord "www" "AAAA" "2001:db8::1" 300 in
  extractValue testApp (toLibdnsRecord testApp r) = Value r
  ↔ (Type_ r = "A" ∨ Type_ r = "AAAA" →
     ∀ ip, netip.ParseAddr (Value r) = Some ip → netip.Is6 ip = true →
           netip.String ip = Value r).
Proof.
  intros r. apply (codec_round_trip testApp r). right. left. reflexivity.
Defined.

Example codec_round_trip_tests :
  extractValue testApp (toLibdnsRecord testApp (mkRecord "www" "A" "192.168.1.100" 300))
  = "192.168.1.100"
  ∧ extractValue testApp (toLibdnsRecord testApp (mkRecord "_test" "TXT" "hello world" 60))
    = "hello world"
  ∧ extractValue testApp (toLibdnsRecord testApp (mkRecord "www" "CNAME" "example.com." 300))
    = "example.com."
  ∧ extractValue testApp (toLibdnsRecord testApp (mkRecord "www" "A" "not-an-address" 300))
    = "not-an-address".
Proof. by vm_compute. Qed.

(** ** The apply driver *)

Section DriverFacts.
Context {St : Type}.
Implicit Types (s : St) (domain : Domain St).

Lemma applyDeletes_reports (a : App) (deleter : Writer) (zone : string)
    (owned : gmap string Rec) (keys : list string) s :
  (∀ key, key ∈ keys →
          length (Strings.SplitN2 key ":"%char) = 2%nat ∧ is_Some (owned !! key)) →
  ∃ s' chunks,
    applyDeletes a deleter zone owned keys s = Some (s', concat chunks)
    ∧ Forall2 (deleteReport a zone owned) keys chunks.
Proof.
  revert s. induction keys as [|key rest IH]; intros s Hkeys; simpl.
  - exists s, []. split; [done|constructor].
  - destruct (Hkeys key) as [Hsplit [rec Hrec]]; [by left|].
    rewrite Hsplit, Hrec. simpl.
    destruct (deleter s zone _) as [s1 res] eqn:Hcall.
    destruct (IH s1) as (s' & chunks & -> & Hall).
    { intros k Hk. apply Hkeys. by right. }
    eexists s', ([_; _] :: chunks). split; [done|].
    constructor; [|done]. by exists rec, res.
Qed.

Lemma applyCreates_reports (a : App) (setter appender : option Writer) (zone : string)
    (recs : list Rec) s :
  is_Some setter ∨ is_Some appender →
  ∃ s' chunks,
    applyCreates a setter appender zone recs s = Some (s', concat chunks)
    ∧ Forall2 (createReport a (bool_decide (is_Some setter)) zone) recs chunks.
Proof.
  intros Hcap. revert s. induction recs as [|rec rest IH]; intros s; simpl.
  - exists s, []. split; [done|constructor].
  - destruct setter as [set|]; [|destruct appender as [app|]].
    + destruct (set s zone _) as [s1 res] eqn:Hcall.
      destruct (IH s1) as (s' & chunks & -> & Hall).
      eexists s', ([_; _] :: chunks). split; [done|]. constructor; [|done]. by exists res.
    + destruct (app s zone _) as [s1 res] eqn:Hcall.
      destruct (IH s1) as (s' & chunks & -> & Hall).
      eexists s', ([_; _] :: chunks). split; [done|]. constructor; [|done]. by exists res.
    + destruct Hcap as [[? ?]|[? ?]]; done.
Qed.

Lemma applyUpdates_reports (a : App) (setter : Writer) (zone : string)
    (recs : list Rec) s :
  ∃ chunks,
    (applyUpdates a setter zone recs s).2 = concat chunks
    ∧ Forall2 (updateReport a zone) recs chunks.
Proof.
  revert s. induction recs as [|rec rest IH]; intros s; simpl.
  - exists []. split; [done|constructor].
  - destruct (setter s zone _) as [s1 res] eqn:Hcall.
    destruct (IH s1) as (chunks & Hev & Hall).
    destruct (applyUpdates a setter zone rest s1) as [s2 events]. simpl in *. subst.
    eexists ([_; _] :: chunks). split; [done|]. constructor; [|done]. by exists res.
Qed.

(** The keys that the diff plans to delete are keys of the owned index,
    and the delete loop splits each of them in two. *)
Lemma toDelete_well_formed (a : App) (existing : list libdns.RecordT) (D : list Rec)
    (key : string) :
  key ∈ toDelete (diff (parseOwnedRecords a existing) D) →
  length (Strings.SplitN2 key ":"%char) = 2%nat
  ∧ is_Some (parseOwnedRecords a existing !! key).
Proof.
  intros [[o Ho] _]%elem_of_computeDelete. split; [|by eexists].
  apply parseOwnedRecords_sound in Ho as (rec & _ & _ & -> & _).
  apply SplitN2_mkKey.
Qed.

(** The shape of the trace of a pass whose fetch succeeds. *)
Lemma reconcileDomain_trace (a : App) domain s s0 (getter : Getter)
    (existing : list libdns.RecordT) :
  RecordGetter (provider domain) = Some getter →
  is_Some (RecordSetter (provider domain)) ∨ is_Some (RecordAppender (provider domain)) →
  getter s (Zone domain) = (s0, Ok existing) →
  let owned := parseOwnedRecords a existing in
  let p := diff owned (Records domain) in
  ∃ s' deleted created updated,
    reconcileDomain a domain s
    = Some (s', Called (GetCall (Zone domain)) :: logPlan (Zone domain) p
                  :: concat deleted ++ concat created ++ concat updated, None)%list
    ∧ match RecordDeleter (provider domain) with
      | Some _ => Forall2 (deleteReport a (Zone domain) owned) (toDelete p) deleted
      | None => deleted = []
      end
    ∧ Forall2 (createReport a (bool_decide (is_Some (RecordSetter (provider domain))))
                 (Zone domain)) (toCreate p) created
    ∧ match RecordSetter (provider domain) with
      | Some _ => Forall2 (updateReport a (Zone domain)) (toUpdate p) updated
      | None => updated = []
      end.
Proof.
  intros Hget Hcap Hfetch owned p.
  assert (∃ s1 deleted,
            deletePhase a domain owned p s0 = Some (s1, concat deleted)
            ∧ match RecordDeleter (provider domain) with
              | Some _ => Forall2 (deleteReport a (Zone domain) owned) (toDelete p) deleted
              | None => deleted = []
              end) as (s1 & deleted & Hdel & Hdeleted).
  { unfold deletePhase. destruct (RecordDeleter (provider domain)) as [deleter|].
    - destruct (toDelete p) as [|k ks] eqn:Hp.
      + exists s0, []. split; [done|constructor].
      + rewrite <- Hp. replace (0 <? length (toDelete p))%nat with true
          by (by rewrite Hp).
        apply applyDeletes_reports. intros key Hkey.
        by apply (toDelete_well_formed a existing (Records domain)).
    - by exists s0, []. }
  assert (∃ s2 created,
            createPhase a domain p s1 = Some (s2, concat created)
            ∧ Forall2 (createReport a (bool_decide (is_Some (RecordSetter (provider domain))))
                         (Zone domain)) (toCreate p) created)
    as (s2 & created & Hcre & Hcreated).
  { unfold createPhase. destruct (toCreate p) as [|r rs] eqn:Hp.
    - exists s1, []. split; [done|constructor].
    - rewrite <- Hp. replace (0 <? length (toCreate p))%nat with true
        by (by rewrite Hp).
      by apply applyCreates_reports. }
  assert (∃ updated,
            (updatePhase a domain p s2).2 = concat updated
            ∧ match RecordSetter (provider domain) with
              | Some _ => Forall2 (updateReport a (Zone domain)) (toUpdate p) updated
              | None => updated = []
              end) as (updated & Hupd & Hupdated).
  { unfold updatePhase. destruct (RecordSetter (provider domain)) as [setter|].
    - destruct (toUpdate p) as [|r rs] eqn:Hp.
      + exists []. split; [done|constructor].
      + rewrite <- Hp. replace (0 <? length (toUpdate p))%nat with true
          by (by rewrite Hp).
        apply applyUpdates_reports.
    - by exists []. }
  destruct (updatePhase a domain p s2) as [s3 ev3] eqn:Hup. simpl in Hupd. subst ev3.
  exists s3, deleted, created, updated. split; [|done].
  unfold reconcileDomain. rewrite Hget.
  assert (applyPlan a domain owned p s0
          = Some (s3, concat deleted ++ concat created ++ concat updated)%list) as Hplan.
  { unfold applyPlan. fold owned p in Hdel. by rewrite Hdel, Hcre, Hup. }
  destruct (RecordSetter (provider domain)) as [set|] eqn:Hs;
    [|destruct (RecordAppender (provider domain)) as [app|] eqn:Ha];
    [| |by destruct Hcap as [[??]|[??]]];
    rewrite Hfetch; fold owned; fold p; by rewrite Hplan.
Qed.

(** A pass never panics. *)
Lemma reconcileDomain_returns (a : App) domain s :
  ∃ s' events err, reconcileDomain a domain s = Some (s', events, err).
Proof.
  destruct (RecordGetter (provider domain)) as [getter|] eqn:Hget;
    [|unfold reconcileDomain; rewrite Hget; eauto].
  destruct (decide (is_Some (RecordSetter (provider domain))
                    ∨ is_Some (RecordAppender (provider domain)))) as [Hcap|Hcap].
  - destruct (getter s (Zone domain)) as [s0 [existing|e]] eqn:Hfetch.
    + destruct (reconcileDomain_trace a domain s s0 getter existing Hget Hcap Hfetch)
        as (s' & ? & ? & ? & -> & _). eauto.
    + unfold reconcileDomain. rewrite Hget, Hfetch.
      destruct (RecordSetter _), (RecordAppender _); eauto.
  - unfold reconcileDomain. rewrite Hget.
    destruct (RecordSetter _) eqn:?; [destruct Hcap; left; eauto|].
    destruct (RecordAppender _) eqn:?; [destruct Hcap; right; eauto|]. eauto.
Qed.

Lemma deleteReport_calls (a : App) (zone : string) (owned : gmap string Rec)
    (keys : list string) (chunks : list (list Event)) :
  Forall2 (deleteReport a zone owned) keys chunks →
  Forall (fun e => isCreateCall e = false ∧ isUpdateCall e = false) (concat chunks).
Proof.
  induction 1 as [|key chunk keys chunks (rec & res & _ & ->) _ IH]; simpl; [constructor|].
  constructor; [done|]. constructor; [by destruct res|done].
Qed.

Lemma createReport_calls (a : App) (hasSetter : bool) (zone : string)
    (recs : list Rec) (chunks : list (list Event)) :
  Forall2 (createReport a hasSetter zone) recs chunks →
  Forall (fun e => isDeleteCall e = false ∧ isUpdateCall e = false) (concat chunks).
Proof.
  induction 1 as [|rec chunk recs chunks (res & ->) _ IH]; simpl; [constructor|].
  constructor; [by destruct hasSetter|]. constructor; [by destruct res|done].
Qed.

Lemma updateReport_calls (a : App) (zone : string)
    (recs : list Rec) (chunks : list (list Event)) :
  Forall2 (updateReport a zone) recs chunks →
  Forall (fun e => isDeleteCall e = false ∧ isCreateCall e = false) (concat chunks).
Proof.
  induction 1 as [|rec chunk recs chunks (res & ->) _ IH]; simpl; [constructor|].
  constructor; [done|]. constructor; [by destruct res|done].
Qed.

(** In the list [before ++ after], an element found only in [before] comes earlier
    than an element found only in [after]. *)
Lemma order_of_app {A} (early late : A → bool) (before after : list A)
    (i j : nat) (e1 e2 : A) :
  Forall (fun e => late e = false) before →
  Forall (fun e => early e = false) after →
  (before ++ after)%list !! i = Some e1 → (before ++ after)%list !! j = Some e2 →
  early e1 = true → late e2 = true → (i < j)%nat.
Proof.
  intros Hb Ha Hi Hj He Hl.
  assert (i < length before)%nat as Hlt.
  { destruct (decide (i < length before)%nat) as [|Hge]; [done|].
    rewrite lookup_app_r in Hi by lia.
    rewrite Forall_forall in Ha. apply list_elem_of_lookup_2 in Hi.
    specialize (Ha _ Hi). congruence. }
  assert (length before ≤ j)%nat as Hge; [|lia].
  destruct (decide (length before ≤ j)%nat) as [|Hlt']; [done|].
  rewrite lookup_app_l in Hj by lia.
  rewrite Forall_forall in Hb. apply list_elem_of_lookup_2 in Hj.
  specialize (Hb _ Hj). congruence.
Qed.

End DriverFacts.

Lemma applyDeletes_phase {St : Type} (a : App) (deleter : @Writer St) (zone : string)
    (owned : gmap string Rec) (keys : list string) (s : St) :
  (∀ key, key ∈ keys →
          length (Strings.SplitN2 key ":"%char) = 2%nat ∧ is_Some (owned !! key)) →
  ∃ s' events,
    applyDeletes a deleter zone owned keys s = Some (s', events)
    ∧ phase (deleteOutcome a deleter zone owned) keys s s' events.
Proof.
  revert s. induction keys as [|key rest IH]; intros s Hkeys; simpl.
  - exists s, []. split; [done|constructor].
  - destruct (Hkeys key) as [Hsplit [rec Hrec]]; [by left|].
    rewrite Hsplit, Hrec. simpl.
    destruct (deleter s zone _) as [s1 res] eqn:Hcall.
    destruct (IH s1) as (s' & events & -> & Hrest).
    { intros k Hk. apply Hkeys. by right. }
    eexists s', _. split; [done|].
    apply (phase_item _ _ _ s s1 s'); [|done].
    exists rec, res. split; [done|]. split; [done|]. split; [done|].
    destruct res; simpl; eexists; (split; [reflexivity|]).
    + split; [by left|]. right. by left.
    + split; [by left|]. split; [right; by left|]. do 2 right. by left.
Qed.

Lemma applyCreates_phase {St : Type} (a : App) (setter appender : option (@Writer St))
    (zone : string) (recs : list Rec) (s : St) :
  is_Some setter ∨ is_Some appender →
  ∃ s' events,
    applyCreates a setter appender zone recs s = Some (s', events)
    ∧ match setter, appender with
      | Some set, _ => phase (createOutcome a SetCall set zone) recs s s' events
      | None, Some app => phase (createOutcome a AppendCall app zone) recs s s' events
      | None, None => False
      end.
Proof.
  intros Hcap. revert s. induction recs as [|rec rest IH]; intros s; simpl.
  - exists s, []. split; [done|].
    destruct setter; [constructor|]. destruct appender; [constructor|].
    destruct Hcap as [[? ?]|[? ?]]; done.
  - destruct setter as [set|]; [|destruct appender as [app|]].
    + destruct (set s zone _) as [s1 res] eqn:Hcall.
      destruct (IH s1) as (s' & events & -> & Hrest).
      eexists s', _. split; [done|].
      apply (phase_item _ _ _ s s1 s'); [|done].
      exists res. split; [done|]. split; [done|].
      destruct res; simpl; eexists; (split; [reflexivity|]).
      * split; [by left|]. right. by left.
      * split; [by left|]. split; [right; by left|]. do 2 right. by left.
    + destruct (app s zone _) as [s1 res] eqn:Hcall.
      destruct (IH s1) as (s' & events & -> & Hrest).
      eexists s', _. split; [done|].
      apply (phase_item _ _ _ s s1 s'); [|done].
      exists res. split; [done|]. split; [done|].
      destruct res; simpl; eexists; (split; [reflexivity|]).
      * split; [by left|]. right. by left.
      * split; [by left|]. split; [right; by left|]. do 2 right. by left.
    + destruct Hcap as [[? ?]|[? ?]]; done.
Qed.

Lemma applyUpdates_phase {St : Type} (a : App) (setter : @Writer St) (zone : string)
    (recs : list Rec) (s : St) :
  ∃ s' events,
    applyUpdates a setter zone recs s = (s', events)
    ∧ phase (updateOutcome a setter zone) recs s s' events.
Proof.
  revert s. induction recs as [|rec rest IH]; intros s; simpl.
  - exists s, []. split; [done|constructor].
  - destruct (setter s zone _) as [s1 res] eqn:Hcall.
    destruct (IH s1) as (s' & events & -> & Hrest).
    eexists s', _. split; [done|].
    apply (phase_item _ _ _ s s1 s'); [|done].
    exists res. split; [done|]. split; [done|].
    destruct res; simpl; eexists; (split; [reflexivity|]).
    + split; [by left|]. right. by left.
    + split; [by left|]. split; [right; by left|]. do 2 right. by left.
Qed.

(** C7 (as amended).  In a pass whose fetch succeeded, the trace is the
    fetch, the summary entry and then the three phases, each run from the
    provider state the one before left.  With the delete capability, each
    key of [toDelete] leaves one [DeleteRecords] call followed by one log
    entry that reports the result of that very call: an info entry when the
    provider returned no error, a warn entry with the provider's error when
    it did.  Without the capability the delete phase leaves nothing in the
    trace, neither call nor entry, and the provider state is unchanged.
    Each record of [toCreate] leaves one write call ([SetRecords], or
    [AppendRecords] when there is no setter) followed by the entry that
    reports its result.  Each record of [toUpdate] leaves one [SetRecords]
    call followed by the entry that reports its result when the provider
    has the upsert capability, and nothing without it.  The pass returns no
    error, whatever the writes returned. *)
Theorem outcomes_reported {St : Type} (a : App) (domain : Domain St) (s s0 : St)
    (getter : Getter) (existing : list libdns.RecordT) :
  RecordGetter (provider domain) = Some getter →
  is_Some (RecordSetter (provider domain)) ∨ is_Some (RecordAppender (provider domain)) →
  getter s (Zone domain) = (s0, Ok existing) →
  let owned := parseOwnedRecords a existing in
  let p := diff owned (Records domain) in
  ∃ s1 s2 s3 deleted created updated,
    reconcileDomain a domain s
    = Some (s3, Called (GetCall (Zone domain)) :: logPlan (Zone domain) p
                  :: deleted ++ created ++ updated, None)%list
    ∧ match RecordDeleter (provider domain) with
      | Some deleter =>
          phase (deleteOutcome a deleter (Zone domain) owned) (toDelete p) s0 s1 deleted
      | None => s1 = s0 ∧ deleted = []
      end
    ∧ match RecordSetter (provider domain), RecordAppender (provider domain) with
      | Some setter, _ =>
          phase (createOutcome a SetCall setter (Zone domain)) (toCreate p) s1 s2 created
      | None, Some appender =>
          phase (createOutcome a AppendCall appender (Zone domain)) (toCreate p) s1 s2
                created
      | None, None => False
      end
    ∧ match RecordSetter (provider domain) with
      | Some setter =>
          phase (updateOutcome a setter (Zone domain)) (toUpdate p) s2 s3 updated
      | None => s3 = s2 ∧ updated = []
      end.
Proof.
  intros Hget Hcap Hfetch owned p.
  assert (∃ s1 deleted,
            deletePhase a domain owned p s0 = Some (s1, deleted)
            ∧ match RecordDeleter (provider domain) with
              | Some deleter =>
                  phase (deleteOutcome a deleter (Zone domain) owned) (toDelete p)
                        s0 s1 deleted
              | None => s1 = s0 ∧ deleted = []
              end) as (s1 & deleted & Hdel & Hdeleted).
  { unfold deletePhase. destruct (RecordDeleter (provider domain)) as [deleter|].
    - destruct (toDelete p) as [|k ks] eqn:Hp.
      + exists s0, []. split; [done|constructor].
      + rewrite <- Hp. replace (0 <? length (toDelete p))%nat with true
          by (by rewrite Hp).
        apply applyDeletes_phase. intros key Hkey.
        by apply (toDelete_well_formed a existing (Records domain)).
    - by exists s0, []. }
  assert (∃ s2 created,
            createPhase a domain p s1 = Some (s2, created)
            ∧ match RecordSetter (provider domain), RecordAppender (provider domain) with
              | Some setter, _ =>
                  phase (createOutcome a SetCall setter (Zone domain)) (toCreate p)
                        s1 s2 created
              | None, Some appender =>
                  phase (createOutcome a AppendCall appender (Zone domain)) (toCreate p)
                        s1 s2 created
              | None, None => False
              end) as (s2 & created & Hcre & Hcreated).
  { unfold createPhase. destruct (toCreate p) as [|r rs] eqn:Hp.
    - exists s1, []. split; [done|].
      destruct (RecordSetter (provider domain)); [constructor|].
      destruct (RecordAppender (provider domain)); [constructor|].
      destruct Hcap as [[? ?]|[? ?]]; done.
    - rewrite <- Hp. replace (0 <? length (toCreate p))%nat with true
        by (by rewrite Hp).
      by apply applyCreates_phase. }
  assert (∃ s3 updated,
            updatePhase a domain p s2 = (s3, updated)
            ∧ match RecordSetter (provider domain) with
              | Some setter =>
                  phase (updateOutcome a setter (Zone domain)) (toUpdate p) s2 s3 updated
              | None => s3 = s2 ∧ updated = []
              end) as (s3 & updated & Hupd & Hupdated).
  { unfold updatePhase. destruct (RecordSetter (provider domain)) as [setter|].
    - destruct (toUpdate p) as [|r rs] eqn:Hp.
      + exists s2, []. split; [done|constructor].
      + rewrite <- Hp. replace (0 <? length (toUpdate p))%nat with true
          by (by rewrite Hp).
        apply applyUpdates_phase.
    - by exists s2, []. }
  exists s1, s2, s3, deleted, created, updated.
  split; [|done].
  assert (applyPlan a domain owned p s0
          = Some (s3, deleted ++ created ++ updated)%list) as Hplan.
  { unfold applyPlan. by rewrite Hdel, Hcre, Hupd. }
  unfold reconcileDomain. rewrite Hget.
  destruct (RecordSetter (provider domain)) as [set|] eqn:Hs;
    [|destruct (RecordAppender (provider domain)) as [app|] eqn:Ha];
    [| |by destruct Hcap as [[??]|[??]]];
    rewrite Hfetch; fold owned; fold p; by rewrite Hplan.
Qed.

(** C7, the claim as stated, fails: without the delete capability the key
    planned for deletion stays in the zone and the log holds the summary
    entry alone; no entry reports the skipped phase. *)
Lemma delete_phase_skipped_silently :
  let domain := mkDomain "example.com" [] (Ideal.provider true true false) in
  toDelete (diff (parseOwnedRecords testApp testRecords) (Records domain)) = ["www:A"]
  ∧ reconcileDomain testApp domain testRecords
    = Some (testRecords,
            [Called (GetCall "example.com");
             Logged Info "reconciling DNS records"
               [FString "zone" "example.com"; FInt "create" 0; FInt "update" 0;
                FInt "delete" 1; FStrings "create_records" [];
                FStrings "update_records" []; FStrings "delete_records" ["www:A"]]],
            None).
Proof. by vm_compute. Qed.

Lemma outcomes_reported_witness :
  let domain := mkDomain "example.com" [mkRecord "new" "TXT" "hello" 0] readOnlyProvider in
  let owned := parseOwnedRecords testApp testRecords in
  let p := diff owned (Records domain) in
  ∃ s1 s2 s3 deleted created updated,
    reconcileDomain testApp domain testRecords
    = Some (s3, Called (GetCall (Zone domain)) :: logPlan (Zone domain) p
                  :: deleted ++ created ++ updated, None)%list
    ∧ match RecordDeleter (provider domain) with
      | Some deleter =>
          phase (deleteOutcome testApp deleter (Zone domain) owned) (toDelete p)
                testRecords s1 deleted
      | None => s1 = testRecords ∧ deleted = []
      end
    ∧ match RecordSetter (provider domain), RecordAppender (provider domain) with
      | Some setter, _ =>
          phase (createOutcome testApp SetCall setter (Zone domain)) (toCreate p)
                s1 s2 created
      | None, Some appender =>
          phase (createOutcome testApp AppendCall appender (Zone domain)) (toCreate p)
                s1 s2 created
      | None, None => False
      end
    ∧ match RecordSetter (provider domain) with
      | Some setter =>
          phase (updateOutcome testApp setter (Zone domain)) (toUpdate p) s2 s3 updated
      | None => s3 = s2 ∧ updated = []
      end.
Proof.
  intros domain.
  apply (outcomes_reported testApp domain testRecords testRecords
           Ideal.GetRecords testRecords).
  - reflexivity.
  - left. by eexists.
  - reflexivity.
Defined.

(** A refused write is reported as a failure: with a provider that serves
    reads and refuses writes, the delete of [www] and the create of [new]
    each leave the call and a warn entry with the provider's error, and the
    pass returns no error. *)
Example failed_writes_reported :
  let domain := mkDomain "example.com" [mkRecord "new" "TXT" "hello" 0] readOnlyProvider in
  ∃ summary,
    reconcileDomain testApp domain testRecords
    = Some (testRecords,
            [Called (GetCall "example.com");
             summary;
             Called (DeleteCall "example.com"
                       [libdns.Address "www" (300 * time.Second) (netip.Addr4 192 168 1 100);
                        makeTXTMarker testApp "www"]);
             Logged Warn "failed to delete record"
               [FString "name" "www"; FString "type" "A"; FError "zone is read-only"];
             Called (SetCall "example.com"
                       [libdns.TXT "new" (300 * time.Second) "hello";
                        makeTXTMarker testApp "new"]);
             Logged Warn "failed to create record"
               [FString "name" "new"; FString "type" "TXT"; FError "zone is read-only"]],
            None).
Proof. intros domain. eexists. by vm_compute. Qed.

(** C8.  A pass returns, and in its trace every [DeleteRecords] call comes
    before every create-phase call, and every create-phase call before
    every update-phase call. *)
Theorem phases_in_order {St : Type} (a : App) (domain : Domain St) (s : St) :
  ∃ s' events err,
    reconcileDomain a domain s = Some (s', events, err)
    ∧ ∀ i j e1 e2,
        events !! i = Some e1 → events !! j = Some e2 →
        (isDeleteCall e1 = true → isCreateCall e2 = true → (i < j)%nat)
        ∧ (isCreateCall e1 = true → isUpdateCall e2 = true → (i < j)%nat)
        ∧ (isDeleteCall e1 = true → isUpdateCall e2 = true → (i < j)%nat).
Proof.
  destruct (RecordGetter (provider domain)) as [getter|] eqn:Hget.
  2:{ exists s, [], (Some "provider does not implement RecordGetter").
      unfold reconcileDomain. rewrite Hget. split; [done|]. by intros i j e1 e2 ?. }
  destruct (decide (is_Some (RecordSetter (provider domain))
                    ∨ is_Some (RecordAppender (provider domain)))) as [Hcap|Hcap].
  2:{ exists s, [], (Some "provider does not implement RecordSetter or RecordAppender").
      unfold reconcileDomain. rewrite Hget.
      destruct (RecordSetter _) eqn:?; [destruct Hcap; left; eauto|].
      destruct (RecordAppender _) eqn:?; [destruct Hcap; right; eauto|].
      split; [done|]. by intros i j e1 e2 ?. }
  destruct (getter s (Zone domain)) as [s0 [existing|e]] eqn:Hfetch.
  2:{ exists s0, [Called (GetCall (Zone domain))], (Some ("getting existing records: " ++ e)).
      unfold reconcileDomain. rewrite Hget, Hfetch.
      split.
      { destruct (RecordSetter _) eqn:?; [done|].
        destruct (RecordAppender _) eqn:?; [done|]. by destruct Hcap as [[??]|[??]]. }
      intros [|i] j e1 e2 H1 H2; [|done]. injection H1 as <-. done. }
  destruct (reconcileDomain_trace a domain s s0 getter existing Hget Hcap Hfetch)
    as (s' & deleted & created & updated & -> & Hd & Hc & Hu).
  do 3 eexists. split; [done|].
  set (head := [Called (GetCall (Zone domain));
                logPlan (Zone domain) (diff (parseOwnedRecords a existing) (Records domain))]).
  assert (Forall (fun e => isCreateCall e = false ∧ isUpdateCall e = false) (concat deleted))
    as Hd'.
  { destruct (RecordDeleter _); [by eapply deleteReport_calls|]. subst. constructor. }
  assert (Forall (fun e => isDeleteCall e = false ∧ isUpdateCall e = false) (concat created))
    as Hc' by (by eapply createReport_calls).
  assert (Forall (fun e => isDeleteCall e = false ∧ isCreateCall e = false) (concat updated))
    as Hu'.
  { destruct (RecordSetter _); [by eapply updateReport_calls|]. subst. constructor. }
  assert (Forall (fun e => isDeleteCall e = false ∧ isCreateCall e = false
                           ∧ isUpdateCall e = false) head) as Hh.
  { repeat constructor. }
  intros i j e1 e2 H1 H2.
  change (?x :: ?y :: ?l) with (head ++ l)%list in H1, H2.
  split; [|split]; intros He1 He2.
  - rewrite (assoc_L (++)) in H1, H2.
    eapply (order_of_app isDeleteCall isCreateCall _ _ i j e1 e2); [| |done..].
    + apply Forall_app. split.
      * eapply Forall_impl; [exact Hh|]. naive_solver.
      * eapply Forall_impl; [exact Hd'|]. naive_solver.
    + apply Forall_app. split.
      * eapply Forall_impl; [exact Hc'|]. naive_solver.
      * eapply Forall_impl; [exact Hu'|]. naive_solver.
  - rewrite !(assoc_L (++)) in H1, H2.
    eapply (order_of_app isCreateCall isUpdateCall _ _ i j e1 e2); [| |done..].
    + rewrite !Forall_app. split; [split|].
      * eapply Forall_impl; [exact Hh|]. naive_solver.
      * eapply Forall_impl; [exact Hd'|]. naive_solver.
      * eapply Forall_impl; [exact Hc'|]. naive_solver.
    + eapply Forall_impl; [exact Hu'|]. naive_solver.
  - rewrite (assoc_L (++)) in H1, H2.
    eapply (order_of_app isDeleteCall isUpdateCall _ _ i j e1 e2); [| |done..].
    + apply Forall_app. split.
      * eapply Forall_impl; [exact Hh|]. naive_solver.
      * eapply Forall_impl; [exact Hd'|]. naive_solver.
    + apply Forall_app. split.
      * eapply Forall_impl; [exact Hc'|]. naive_solver.
      * eapply Forall_impl; [exact Hu'|]. naive_solver.
Qed.

(** ** Idempotence over a provider that applies what it is asked *)

Lemma applyDeletes_ideal (a : App) (zone : string) (owned : gmap string Rec)
    (keys : list string) (Z : list libdns.RecordT) :
  (∀ key, key ∈ keys →
          length (Strings.SplitN2 key ":"%char) = 2%nat ∧ is_Some (owned !! key)) →
  ∃ events,
    applyDeletes a Ideal.DeleteRecords zone owned keys Z
    = Some (deletesZ a owned keys Z, events).
Proof.
  revert Z. induction keys as [|key rest IH]; intros Z Hkeys; simpl; [by eexists|].
  destruct (Hkeys key) as [Hsplit [rec Hrec]]; [by left|].
  rewrite Hsplit, Hrec. simpl.
  edestruct IH as [events ->]; [|by eexists].
  intros k Hk. apply Hkeys. by right.
Qed.

Lemma applyCreates_ideal (a : App) (appender : option Writer) (zone : string)
    (recs : list Rec) (Z : list libdns.RecordT) :
  ∃ events,
    applyCreates a (Some Ideal.SetRecords) appender zone recs Z
    = Some (writesZ a ((fun d => (d, true)) <$> recs) Z, events).
Proof.
  revert Z. induction recs as [|rec rest IH]; intros Z; simpl; [by eexists|].
  edestruct IH as [events ->]. by eexists.
Qed.

Lemma applyUpdates_ideal (a : App) (zone : string)
    (recs : list Rec) (Z : list libdns.RecordT) :
  (applyUpdates a Ideal.SetRecords zone recs Z).1
  = writesZ a ((fun d => (d, false)) <$> recs) Z.
Proof.
  revert Z. induction recs as [|rec rest IH]; intros Z; simpl; [done|].
  rewrite <- IH. by destruct (applyUpdates _ _ _ _ _).
Qed.

(** With the upsert and delete capabilities, the apply phases take the
    zone to [passZ]. *)
Lemma applyPlan_ideal (a : App) (zone : string) (D : list Rec) (hasAppender : bool)
    (owned : gmap string Rec) (p : Plan) (Z : list libdns.RecordT) :
  (∀ key, key ∈ toDelete p →
          length (Strings.SplitN2 key ":"%char) = 2%nat ∧ is_Some (owned !! key)) →
  ∃ events,
    applyPlan a (mkDomain zone D (Ideal.provider true hasAppender true)) owned p Z
    = Some (passZ a owned p Z, events).
Proof.
  intros Hkeys. unfold applyPlan, deletePhase, createPhase, updatePhase, passZ. simpl.
  destruct (applyDeletes_ideal a zone owned (toDelete p) Z Hkeys) as [ev1 H1].
  assert ((if (0 <? length (toDelete p))%nat
           then applyDeletes a Ideal.DeleteRecords zone owned (toDelete p) Z
           else Some (Z, []))
          = Some (deletesZ a owned (toDelete p) Z,
                  if (0 <? length (toDelete p))%nat then ev1 else [])) as ->.
  { destruct (toDelete p); [done|]. apply H1. }
  set (Z1 := deletesZ a owned (toDelete p) Z).
  destruct (applyCreates_ideal a (if hasAppender then Some Ideal.AppendRecords else None)
              zone (toCreate p) Z1) as [ev2 H2].
  assert ((if (0 <? length (toCreate p))%nat
           then applyCreates a (Some Ideal.SetRecords)
                  (if hasAppender then Some Ideal.AppendRecords else None)
                  zone (toCreate p) Z1
           else Some (Z1, []))
          = Some (writesZ a ((fun d => (d, true)) <$> toCreate p) Z1,
                  if (0 <? length (toCreate p))%nat then ev2 else [])) as ->.
  { destruct (toCreate p); [done|]. apply H2. }
  set (Z2 := writesZ a _ Z1).
  pose proof (applyUpdates_ideal a zone (toUpdate p) Z2) as H3.
  destruct (toUpdate p) as [|u us] eqn:Hu.
  - simpl. by eexists.
  - replace (0 <? length (u :: us))%nat with true by done.
    destruct (applyUpdates a Ideal.SetRecords zone (u :: us) Z2) as [Z3 ev3].
    simpl in H3. subst Z3. by eexists.
Qed.

(** *** The calls of the provider, one at a time *)

Lemma sameRR_spec (x y : libdns.RR) : Ideal.sameRR x y = true ↔ x = y.
Proof.
  destruct x, y. unfold Ideal.sameRR. simpl.
  rewrite !andb_true_iff, !String.eqb_eq, Z.eqb_eq. split.
  - by intros [[[-> ->] ->] ->].
  - by intros [= -> -> -> ->].
Qed.

Lemma samePair_spec (x y : libdns.RR) :
  Ideal.samePair x y = true
  ↔ libdns.Name x = libdns.Name y ∧ libdns.Type_ x = libdns.Type_ y.
Proof. unfold Ideal.samePair. by rewrite andb_true_iff, !String.eqb_eq. Qed.

Lemma matchesAny_true (test : libdns.RR → libdns.RR → bool)
    (recs : list libdns.RecordT) (z : libdns.RecordT) :
  Ideal.matchesAny test recs z = true
  ↔ ∃ r, r ∈ recs ∧ test (libdns.rr z) (libdns.rr r) = true.
Proof.
  unfold Ideal.matchesAny. rewrite existsb_exists.
  split; intros (r & Hr & Ht); exists r; by rewrite ?list_elem_of_In in *.
Qed.

Lemma matchesAny_false (test : libdns.RR → libdns.RR → bool)
    (recs : list libdns.RecordT) (z : libdns.RecordT) :
  Ideal.matchesAny test recs z = false
  ↔ ∀ r, r ∈ recs → test (libdns.rr z) (libdns.rr r) = false.
Proof.
  rewrite <- not_true_iff_false, matchesAny_true. split.
  - intros Hno r Hr. apply not_true_iff_false. intros Ht. apply Hno. eauto.
  - intros Hall (r & Hr & Ht). rewrite (Hall r Hr) in Ht. done.
Qed.

Lemma elem_of_keep (test : libdns.RR → libdns.RR → bool)
    (recs Z : list libdns.RecordT) (z : libdns.RecordT) :
  z ∈ Ideal.keep test recs Z ↔ z ∈ Z ∧ Ideal.matchesAny test recs z = false.
Proof. unfold Ideal.keep. rewrite list_elem_of_filter. tauto. Qed.

Lemma filter_ext_in {A} (P Q : A → Prop) `{!∀ x, Decision (P x), !∀ x, Decision (Q x)}
    (l : list A) :
  (∀ x, x ∈ l → P x ↔ Q x) → filter P l = filter Q l.
Proof.
  induction l as [|x l IH]; intros Hext; [done|].
  rewrite !filter_cons, IH by (intros y Hy; apply Hext; by right).
  destruct (decide (P x)) as [HP|HP], (decide (Q x)) as [HQ|HQ]; try done.
  - destruct HQ. apply Hext; [by left|done].
  - destruct HP. apply Hext; [by left|done].
Qed.

Lemma filter_none {A} (P : A → Prop) `{!∀ x, Decision (P x)} (l : list A) :
  (∀ x, x ∈ l → ¬ P x) → filter P l = [].
Proof.
  intros Hno. apply elem_of_nil_inv. intros x [HP Hin]%list_elem_of_filter.
  by apply (Hno x).
Qed.

Lemma recsAt_app (k : string) (Z1 Z2 : list libdns.RecordT) :
  recsAt k (Z1 ++ Z2) = (recsAt k Z1 ++ recsAt k Z2)%list.
Proof. apply filter_app. Qed.

Lemma recsAt_keep_same (test : libdns.RR → libdns.RR → bool) (k : string)
    (recs Z : list libdns.RecordT) :
  (∀ z, z ∈ Z → lkey z = k → Ideal.matchesAny test recs z = false) →
  recsAt k (Ideal.keep test recs Z) = recsAt k Z.
Proof.
  intros H. unfold recsAt, Ideal.keep. rewrite list_filter_filter.
  apply filter_ext_in. intros z Hz. split; [tauto|]. intros Hk. split; [done|].
  by apply H.
Qed.

Lemma recsAt_keep_none (test : libdns.RR → libdns.RR → bool) (k : string)
    (recs Z : list libdns.RecordT) :
  (∀ z, z ∈ Z → lkey z = k → Ideal.matchesAny test recs z = true) →
  recsAt k (Ideal.keep test recs Z) = [].
Proof.
  intros H. unfold recsAt, Ideal.keep. rewrite list_filter_filter.
  apply filter_none. intros z Hz [Hk Hm]. rewrite (H z Hz Hk) in Hm. done.
Qed.

Lemma lkey_toLibdnsRecord (a : App) (d : Rec) :
  roundTrips a d → lkey (toLibdnsRecord a d) = recKey d.
Proof. intros (Ht & _). unfold lkey, recKey. by rewrite toLibdnsRecord_Name, Ht. Qed.

Lemma append_inj_prefix (p s t : string) : p ++ s = p ++ t → s = t.
Proof. intros H. by rewrite <- (TrimPrefix_app p s), H, TrimPrefix_app. Qed.

Lemma colon_free_TXT : colon_free "TXT".
Proof. reflexivity. Qed.

Lemma lkey_eq (x y : libdns.RecordT) :
  colon_free (libdns.Type_ (libdns.rr x)) → colon_free (libdns.Type_ (libdns.rr y)) →
  lkey x = lkey y
  ↔ libdns.Name (libdns.rr x) = libdns.Name (libdns.rr y)
    ∧ libdns.Type_ (libdns.rr x) = libdns.Type_ (libdns.rr y).
Proof.
  intros Hx Hy. unfold lkey. split; [by apply mkKey_inj|]. by intros [-> ->].
Qed.

(** **** [SetRecords] *)

Lemma elem_of_setZ (recs Z : list libdns.RecordT) (z : libdns.RecordT) :
  z ∈ setZ recs Z ↔ (z ∈ Z ∧ Ideal.matchesAny Ideal.samePair recs z = false) ∨ z ∈ recs.
Proof. unfold setZ. by rewrite elem_of_app, elem_of_keep. Qed.

Lemma recsAt_setZ_other (k : string) (recs Z : list libdns.RecordT) :
  (∀ r, r ∈ recs → lkey r ≠ k) → recsAt k (setZ recs Z) = recsAt k Z.
Proof.
  intros Hk. unfold setZ. rewrite recsAt_app.
  assert (recsAt k recs = []) as ->
    by (apply filter_none; intros r Hr; by apply Hk).
  rewrite app_nil_r. apply recsAt_keep_same.
  intros z Hz Hzk. apply matchesAny_false. intros r Hr.
  apply not_true_iff_false. intros [Hn Ht]%samePair_spec.
  apply (Hk r Hr). unfold lkey in *. by rewrite <- Hn, <- Ht.
Qed.

Lemma lkey_marker_ne (a : App) (n : string) (d : Rec) :
  Strings.HasPrefix (Name d) txtPrefix = false →
  lkey (makeTXTMarker a n) ≠ recKey d.
Proof.
  intros Hp Heq. assert (Strings.HasPrefix (recKey d) txtPrefix = true) as H.
  { rewrite <- Heq. unfold lkey. rewrite HasPrefix_mkKey. simpl. apply HasPrefix_app. }
  unfold recKey in H. rewrite HasPrefix_mkKey in H. congruence.
Qed.

Lemma recsAt_setZ_written (a : App) (d : Rec) (m : bool) (Z : list libdns.RecordT) :
  declarable a d →
  (∀ z, z ∈ Z → colon_free (libdns.Type_ (libdns.rr z))) →
  recsAt (recKey d) (setZ (written a (d, m)) Z) = [toLibdnsRecord a d].
Proof.
  intros (Hp & Hcf & Hrt) HZ. unfold setZ. rewrite recsAt_app.
  rewrite recsAt_keep_none.
  - unfold written, recsAt. simpl. rewrite filter_cons_True by (by apply lkey_toLibdnsRecord).
    f_equal. apply filter_none. intros r Hr. destruct m; [|by apply elem_of_nil in Hr].
    apply list_elem_of_singleton in Hr as ->. by apply lkey_marker_ne.
  - intros z Hz Hk. apply matchesAny_true. exists (toLibdnsRecord a d).
    split; [by left|]. apply samePair_spec.
    rewrite <- (lkey_toLibdnsRecord a d Hrt) in Hk.
    apply lkey_eq in Hk; [done|by apply HZ|]. destruct Hrt as [-> _]. done.
Qed.

Lemma hasOwnMarker_setZ (a : App) (d : Rec) (m : bool) (Z : list libdns.RecordT)
    (n : string) :
  Strings.HasPrefix (Name d) txtPrefix = false →
  hasOwnMarker a Z n → hasOwnMarker a (setZ (written a (d, m)) Z) n.
Proof.
  intros Hp (m0 & Hin & Hown & Hname).
  destruct (Ideal.matchesAny Ideal.samePair (written a (d, m)) m0) eqn:E.
  - apply matchesAny_true in E as (r & Hr & [Hn _]%samePair_spec).
    unfold written in Hr. simpl in Hr. apply elem_of_cons in Hr as [->|Hr].
    + rewrite toLibdnsRecord_Name, Hname in Hn.
      rewrite <- Hn, HasPrefix_app in Hp. done.
    + destruct m; [|by apply elem_of_nil in Hr].
      apply list_elem_of_singleton in Hr as ->. simpl in Hn.
      rewrite Hname in Hn. apply append_inj_prefix in Hn as ->.
      exists (makeTXTMarker a (Name d)). split.
      * apply elem_of_setZ. right. unfold written. simpl. set_solver.
      * split; [apply makeTXTMarker_isOwnMarker|done].
  - exists m0. split; [|done]. apply elem_of_setZ. by left.
Qed.

Lemma hasOwnMarker_setZ_new (a : App) (d : Rec) (Z : list libdns.RecordT) :
  hasOwnMarker a (setZ (written a (d, true)) Z) (Name d).
Proof.
  exists (makeTXTMarker a (Name d)). split.
  - apply elem_of_setZ. right. unfold written. simpl. set_solver.
  - split; [apply makeTXTMarker_isOwnMarker|done].
Qed.

(** **** [DeleteRecords] *)

Lemma elem_of_delZ (recs Z : list libdns.RecordT) (z : libdns.RecordT) :
  z ∈ delZ recs Z ↔ z ∈ Z ∧ ∀ r, r ∈ recs → libdns.rr z ≠ libdns.rr r.
Proof.
  unfold delZ. rewrite elem_of_keep, matchesAny_false.
  split; intros [Hz H]; (split; [done|]); intros r Hr; specialize (H r Hr).
  - intros Heq%sameRR_spec. congruence.
  - apply not_true_iff_false. by intros Heq%sameRR_spec.
Qed.

Lemma recsAt_delZ (k : string) (recs Z : list libdns.RecordT) :
  (∀ z r, z ∈ Z → lkey z = k → r ∈ recs → libdns.rr z ≠ libdns.rr r) →
  recsAt k (delZ recs Z) = recsAt k Z.
Proof.
  intros H. apply recsAt_keep_same. intros z Hz Hk.
  apply matchesAny_false. intros r Hr. apply not_true_iff_false.
  intros Heq%sameRR_spec. by apply (H z r).
Qed.

(** *** The write loops *)

Lemma writesZ_app (a : App) (ws1 ws2 : list (Rec * bool)) (Z : list libdns.RecordT) :
  writesZ a (ws1 ++ ws2) Z = writesZ a ws2 (writesZ a ws1 Z).
Proof. revert Z. induction ws1 as [|w ws1 IH]; intros Z; simpl; [done|apply IH]. Qed.

Lemma written_colon_free (a : App) (w : Rec * bool) (r : libdns.RecordT) :
  declarable a w.1 → r ∈ written a w → colon_free (libdns.Type_ (libdns.rr r)).
Proof.
  intros (_ & Hcf & Ht & _) Hr. unfold written in Hr.
  apply elem_of_cons in Hr as [->|Hr]; [by rewrite Ht|].
  destruct w.2; [|by apply elem_of_nil in Hr].
  apply list_elem_of_singleton in Hr as ->. reflexivity.
Qed.

Lemma written_lkey (a : App) (w : Rec * bool) (r : libdns.RecordT) :
  declarable a w.1 → r ∈ written a w →
  lkey r = recKey w.1 ∨ Strings.HasPrefix (lkey r) txtPrefix = true.
Proof.
  intros (_ & _ & Hrt) Hr. unfold written in Hr.
  apply elem_of_cons in Hr as [->|Hr]; [left; by apply lkey_toLibdnsRecord|].
  destruct w.2; [|by apply elem_of_nil in Hr].
  apply list_elem_of_singleton in Hr as ->. right.
  unfold lkey. rewrite HasPrefix_mkKey. apply HasPrefix_app.
Qed.

Lemma writesZ_spec (a : App) (D : list Rec) (ws : list (Rec * bool))
    (Z : list libdns.RecordT) :
  (∀ w, w ∈ ws → goodWrite a D w) →
  (∀ z, z ∈ Z → colon_free (libdns.Type_ (libdns.rr z))) →
  (∀ z, z ∈ writesZ a ws Z → z ∈ Z ∨ ∃ w, w ∈ ws ∧ z ∈ written a w)
  ∧ (∀ k, (∀ w, w ∈ ws → recKey w.1 ≠ k) → Strings.HasPrefix k txtPrefix = false →
          recsAt k (writesZ a ws Z) = recsAt k Z)
  ∧ (∀ w, w ∈ ws → recsAt (recKey w.1) (writesZ a ws Z) = [toLibdnsRecord a w.1])
  ∧ (∀ n, hasOwnMarker a Z n → hasOwnMarker a (writesZ a ws Z) n)
  ∧ (∀ d, (d, true) ∈ ws → hasOwnMarker a (writesZ a ws Z) (Name d)).
Proof.
  revert Z. induction ws as [|w ws IH]; intros Z Hgood HZ; simpl.
  { split; [by left|]. split; [done|]. split; [by intros ? ?%elem_of_nil|].
    split; [done|]. by intros ? ?%elem_of_nil. }
  destruct (Hgood w) as [Hdes Hdecl]; [by left|].
  assert (∀ z, z ∈ setZ (written a w) Z → colon_free (libdns.Type_ (libdns.rr z))) as HZ'.
  { intros z [[Hz _]|Hz]%elem_of_setZ; [by apply HZ|by eapply written_colon_free]. }
  destruct (IH (setZ (written a w) Z)) as (R1 & R2 & R3 & R4 & R5);
    [intros w' Hw'; apply Hgood; by right|done|].
  assert (∀ k, recKey w.1 ≠ k → Strings.HasPrefix k txtPrefix = false →
               recsAt k (setZ (written a w) Z) = recsAt k Z) as Hstep.
  { intros k Hne Hp. apply recsAt_setZ_other. intros r Hr Hk.
    destruct (written_lkey a w r Hdecl Hr) as [Hl|Hl]; congruence. }
  split; [|split; [|split; [|split]]].
  - intros z [Hz|(w' & Hw' & Hz)]%R1.
    + apply elem_of_setZ in Hz as [[Hz _]|Hz]; [by left|]. right. exists w. split; [by left|done].
    + right. exists w'. split; [by right|done].
  - intros k Hk Hp. rewrite R2; [|intros w' Hw'; apply Hk; by right|done].
    apply Hstep; [|done]. apply Hk. by left.
  - intros w' Hw'.
    destruct (decide (Exists (fun w'' => recKey w''.1 = recKey w'.1) ws)) as [Hex|Hnex].
    + apply Exists_exists in Hex as (w'' & Hw'' & Hk).
      rewrite <- Hk, (R3 w'' Hw''). f_equal. f_equal.
      destruct (Hgood w'') as [Hd'' _]; [by right|].
      destruct (Hgood w') as [Hd' _]; [done|].
      rewrite Hk, Hd' in Hd''. by injection Hd''.
    + apply elem_of_cons in Hw' as [->|Hw'].
      2:{ destruct Hnex. apply Exists_exists. by exists w'. }
      rewrite R2.
      * destruct w as [d m]. by apply recsAt_setZ_written.
      * intros w'' Hw'' Hk. apply Hnex. apply Exists_exists. by exists w''.
      * destruct Hdecl as (Hp & _). unfold recKey. by rewrite HasPrefix_mkKey.
  - intros n Hn. apply R4. destruct w as [d m]. apply hasOwnMarker_setZ; [|done].
    by destruct Hdecl as (Hp & _).
  - intros d [<-|Hd]%elem_of_cons; [|by apply R5].
    apply R4. apply hasOwnMarker_setZ_new.
Qed.

(** *** The delete loop *)

Lemma deletesZ_subseteq (a : App) (owned : gmap string Rec) (keys : list string)
    (Z : list libdns.RecordT) (z : libdns.RecordT) :
  z ∈ deletesZ a owned keys Z → z ∈ Z.
Proof.
  revert Z. induction keys as [|key rest IH]; intros Z; simpl; [done|].
  destruct (owned !! key) as [rec|]; [|done].
  intros Hz%IH. by apply elem_of_delZ in Hz as [? _].
Qed.

Lemma untouched_request (a : App) (rec : Rec) (z r : libdns.RecordT) :
  libdns.Name (libdns.rr z) ≠ Name rec →
  libdns.Name (libdns.rr z) ≠ txtPrefix ++ Name rec →
  r ∈ [toLibdnsRecord a rec; makeTXTMarker a (Name rec)] →
  libdns.rr z ≠ libdns.rr r.
Proof.
  intros H1 H2 Hr Heq. apply elem_of_cons in Hr as [->|Hr].
  - apply H1. by rewrite Heq, toLibdnsRecord_Name.
  - apply list_elem_of_singleton in Hr as ->. apply H2. by rewrite Heq.
Qed.

Lemma deletesZ_untouched (a : App) (owned : gmap string Rec) (keys : list string)
    (Z : list libdns.RecordT) (z : libdns.RecordT) :
  z ∈ Z → untouched owned keys z → z ∈ deletesZ a owned keys Z.
Proof.
  revert Z. induction keys as [|key rest IH]; intros Z Hz Hun; simpl; [done|].
  destruct (owned !! key) as [rec|] eqn:Hrec; [|done].
  apply IH.
  - apply elem_of_delZ. split; [done|]. intros r Hr.
    destruct (Hun key rec) as [H1 H2]; [by left|done|]. by eapply untouched_request.
  - intros k r Hk. apply Hun. by right.
Qed.

Lemma recsAt_deletesZ (a : App) (owned : gmap string Rec) (keys : list string)
    (Z : list libdns.RecordT) (k : string) :
  (∀ z, z ∈ Z → lkey z = k → untouched owned keys z) →
  recsAt k (deletesZ a owned keys Z) = recsAt k Z.
Proof.
  revert Z. induction keys as [|key rest IH]; intros Z Hun; simpl; [done|].
  destruct (owned !! key) as [rec|] eqn:Hrec; [|done].
  rewrite IH.
  - apply recsAt_delZ. intros z r Hz Hk Hr.
    destruct (Hun z Hz Hk key rec) as [H1 H2]; [by left|done|]. by eapply untouched_request.
  - intros z [Hz _]%elem_of_delZ Hk key' rec' Hkey'. apply (Hun z Hz Hk). by right.
Qed.

Lemma deletesZ_marker_gone (a : App) (owned : gmap string Rec) (keys : list string)
    (Z : list libdns.RecordT) (key : string) (rec : Rec) :
  (∀ k, k ∈ keys → is_Some (owned !! k)) →
  markersAsWritten a Z →
  key ∈ keys → owned !! key = Some rec →
  ¬ hasOwnMarker a (deletesZ a owned keys Z) (Name rec).
Proof.
  revert Z. induction keys as [|key0 rest IH]; intros Z Hsome Hmk Hkey Hrec;
    [by apply elem_of_nil in Hkey|]. simpl.
  destruct (Hsome key0) as [rec0 Hrec0]; [by left|]. rewrite Hrec0.
  set (Z1 := delZ [toLibdnsRecord a rec0; makeTXTMarker a (Name rec0)] Z).
  assert (markersAsWritten a Z1) as Hmk1.
  { intros z [Hz _]%elem_of_delZ. by apply Hmk. }
  apply elem_of_cons in Hkey as [->|Hkey].
  - assert (rec0 = rec) as -> by congruence.
    intros (m & Hm%deletesZ_subseteq & Hown & Hname).
    apply elem_of_delZ in Hm as [Hm Hne].
    apply (Hne (makeTXTMarker a (Name rec))); [set_solver|].
    rewrite (Hmk m Hm Hown), Hname, TrimPrefix_app. done.
  - apply IH; [|done..]. intros k Hk. apply Hsome. by right.
Qed.

(** *** One pass reaches a fixed point *)

Lemma owned_lookup_recsAt (a : App) (Z : list libdns.RecordT) (k : string) :
  parseOwnedRecords a Z !! k
  = project a <$> last (filter (fun rec => claimed (findMarkers a Z ∅) rec = true)
                               (recsAt k Z)).
Proof.
  unfold parseOwnedRecords, recsAt. by rewrite collectOwned_lookup, list_filter_filter.
Qed.

(** Under a claimed name, the owned index reads the last zone record of
    the key. *)
Lemma owned_lookup_marked (a : App) (Z : list libdns.RecordT) (n t : string) :
  (∀ z, z ∈ Z → colon_free (libdns.Type_ (libdns.rr z))) →
  colon_free t →
  Strings.HasPrefix n txtPrefix = false →
  hasOwnMarker a Z n →
  parseOwnedRecords a Z !! mkKey n t = project a <$> last (recsAt (mkKey n t) Z).
Proof.
  intros HZ Ht Hp Hm. rewrite owned_lookup_recsAt. do 2 f_equal.
  unfold recsAt. rewrite list_filter_filter. apply filter_ext_in.
  intros z Hz. split; [tauto|]. intros Hk. split; [|done].
  apply mkKey_inj in Hk as [Hn _]; [|by apply HZ|done].
  unfold claimed. rewrite Hn, Hp. simpl. apply findMarkers_spec. by right.
Qed.

Section FixedPoint.

Variables (a : App) (D : list Rec) (Z : list libdns.RecordT).

Hypothesis declared_ok : ∀ d, d ∈ D → declarable a d.
Hypothesis zone_types : ∀ z, z ∈ Z → colon_free (libdns.Type_ (libdns.rr z)).
Hypothesis names_declared :
  ∀ z d, z ∈ Z → d ∈ D → libdns.Name (libdns.rr z) = Name d →
         ∃ d', d' ∈ D ∧ recKey d' = lkey z.
Hypothesis markers_ok : markersAsWritten a Z.

Variable p : Plan.
Hypothesis plan_ok : samePlan p (diff (parseOwnedRecords a Z) D).

Let owned := parseOwnedRecords a Z.
Let desired := buildDesired D.
Let Z1 := deletesZ a owned (toDelete p) Z.
Let ws := (((fun d => (d, true)) <$> toCreate p) ++ ((fun d => (d, false)) <$> toUpdate p))%list.
Let Z' := writesZ a ws Z1.

Lemma passZ_unfold : passZ a owned p Z = Z'.
Proof. unfold passZ, Z', ws. by rewrite writesZ_app. Qed.

Lemma in_toDelete (k : string) :
  k ∈ toDelete p ↔ is_Some (owned !! k) ∧ desired !! k = None.
Proof.
  destruct plan_ok as (_ & _ & Hd). rewrite Hd. apply elem_of_computeDelete.
Qed.

Lemma in_toCreate (d : Rec) :
  d ∈ toCreate p ↔ desired !! recKey d = Some d ∧ owned !! recKey d = None.
Proof.
  destruct plan_ok as (Hc & _ & _). rewrite Hc. apply elem_of_computeCreate.
Qed.

Lemma in_toUpdate (d : Rec) :
  d ∈ toUpdate p
  ↔ desired !! recKey d = Some d ∧ ∃ o, owned !! recKey d = Some o ∧ needsUpdate o d = true.
Proof.
  destruct plan_ok as (_ & Hu & _). rewrite Hu. apply elem_of_computeUpdate.
Qed.

Lemma in_ws (w : Rec * bool) :
  w ∈ ws ↔ (w.2 = true ∧ w.1 ∈ toCreate p) ∨ (w.2 = false ∧ w.1 ∈ toUpdate p).
Proof.
  unfold ws. rewrite elem_of_app, !list_elem_of_fmap. destruct w as [d m]. simpl. split.
  - intros [(d' & [= -> ->] & Hd)|(d' & [= -> ->] & Hd)]; [by left|by right].
  - intros [[-> Hd]|[-> Hd]]; [left|right]; by exists d.
Qed.

Lemma desired_declarable (d : Rec) (k : string) :
  desired !! k = Some d → recKey d = k ∧ d ∈ D ∧ declarable a d.
Proof.
  intros Hd. destruct (buildDesired_key _ _ _ Hd) as [Hk Hin]. auto.
Qed.

Lemma ws_good (w : Rec * bool) : w ∈ ws → goodWrite a D w.
Proof.
  intros [[_ [Hd _]%in_toCreate]|[_ [Hd _]%in_toUpdate]]%in_ws;
    (split; [done|]); by destruct (desired_declarable _ _ Hd) as (_ & _ & ?).
Qed.

Lemma Z1_types (z : libdns.RecordT) : z ∈ Z1 → colon_free (libdns.Type_ (libdns.rr z)).
Proof. intros Hz%deletesZ_subseteq. by apply zone_types. Qed.

(** An owned entry is the projection of a claimed zone record. *)
Lemma owned_entry (k : string) (o : Rec) :
  owned !! k = Some o →
  ∃ z, z ∈ Z ∧ o = project a z ∧ k = lkey z
       ∧ Strings.HasPrefix (libdns.Name (libdns.rr z)) txtPrefix = false
       ∧ hasOwnMarker a Z (libdns.Name (libdns.rr z)).
Proof.
  intros Ho. apply parseOwnedRecords_sound in Ho as (z & Hz & -> & -> & Hp & Hm).
  by exists z.
Qed.

(** The name of a record planned for deletion is no declared name. *)
Lemma deleted_name_undeclared (key : string) (rec d : Rec) :
  key ∈ toDelete p → owned !! key = Some rec → d ∈ D → Name rec ≠ Name d.
Proof.
  intros [_ Hnone]%in_toDelete Ho Hd Hn.
  apply owned_entry in Ho as (z & Hz & -> & -> & _).
  destruct (names_declared z d Hz Hd Hn) as (d' & Hd' & Hk).
  destruct (buildDesired_is_Some D d' Hd') as [x Hx].
  fold desired in Hx. rewrite Hk in Hx. congruence.
Qed.

Lemma deleted_name_no_prefix (key : string) (rec : Rec) :
  owned !! key = Some rec → Strings.HasPrefix (Name rec) txtPrefix = false.
Proof. intros Ho. by apply owned_entry in Ho as (z & _ & -> & _ & Hp & _). Qed.

(** The delete loop leaves the records under declared names, and the
    markers of declared names, in place. *)
Lemma declared_name_untouched (d : Rec) (z : libdns.RecordT) :
  d ∈ D →
  libdns.Name (libdns.rr z) = Name d ∨ libdns.Name (libdns.rr z) = txtPrefix ++ Name d →
  untouched owned (toDelete p) z.
Proof.
  intros Hd Hz key rec Hkey Ho.
  pose proof (deleted_name_undeclared key rec d Hkey Ho Hd) as Hne.
  pose proof (deleted_name_no_prefix key rec Ho) as Hnp.
  destruct (declared_ok d Hd) as (Hp & _).
  destruct Hz as [-> | ->]; split.
  - congruence.
  - intros Heq. rewrite Heq, HasPrefix_app in Hp. done.
  - intros Heq. rewrite <- Heq, HasPrefix_app in Hnp. done.
  - intros Heq%append_inj_prefix. congruence.
Qed.

Lemma marker_kept (d : Rec) :
  d ∈ D → hasOwnMarker a Z (Name d) → hasOwnMarker a Z' (Name d).
Proof.
  intros Hd (m & Hm & Hown & Hname).
  destruct (writesZ_spec a D ws Z1 ws_good Z1_types) as (_ & _ & _ & R4 & _).
  apply R4. exists m. split; [|done].
  apply deletesZ_untouched; [done|]. apply (declared_name_untouched d); auto.
Qed.

(** Where the owned index has a declared key, the name is claimed. *)
Lemma owned_declared_marked (d : Rec) (o : Rec) :
  d ∈ D → owned !! recKey d = Some o → hasOwnMarker a Z (Name d).
Proof.
  intros Hd Ho. apply owned_entry in Ho as (z & Hz & _ & Hk & _ & Hm).
  destruct (declared_ok d Hd) as (_ & Hcf & _).
  apply mkKey_inj in Hk as [-> _]; [done|done|by apply zone_types].
Qed.

(** After the pass every declared key is owned, by an entry that needs no
    update. *)
Lemma declared_settled (d : Rec) (k : string) :
  desired !! k = Some d →
  ∃ o, parseOwnedRecords a Z' !! k = Some o ∧ needsUpdate o d = false.
Proof.
  intros Hdes. destruct (desired_declarable d k Hdes) as (<- & Hd & Hdecl).
  destruct Hdecl as (Hp & Hcf & Hrt).
  destruct (writesZ_spec a D ws Z1 ws_good Z1_types) as (R1 & R2 & R3 & R4 & R5).
  fold Z' in R1, R2, R3, R4, R5.
  assert (∀ z, z ∈ Z' → colon_free (libdns.Type_ (libdns.rr z))) as HZ'.
  { intros z [Hz|(w & Hw & Hz)]%R1; [by apply Z1_types|].
    eapply written_colon_free; [|done]. by apply ws_good. }
  assert (settled : ∀ m, (d, m) ∈ ws → hasOwnMarker a Z' (Name d) →
            ∃ o, parseOwnedRecords a Z' !! recKey d = Some o ∧ needsUpdate o d = false).
  { intros m Hw Hm. unfold recKey. rewrite owned_lookup_marked by done.
    pose proof (R3 _ Hw) as H3. unfold recKey in H3. simpl in H3. rewrite H3.
    simpl. eexists. split; [done|].
    unfold needsUpdate, project. simpl. destruct Hrt as (_ & -> & Httl).
    rewrite String.eqb_refl. simpl. destruct (0 <? TTL d) eqn:E; [|done].
    apply Z.ltb_lt in E. rewrite (Httl E), Z.eqb_refl. done. }
  destruct (owned !! recKey d) as [o|] eqn:Ho.
  - pose proof (owned_declared_marked d o Hd Ho) as Hm0.
    pose proof (marker_kept d Hd Hm0) as Hm'.
    destruct (needsUpdate o d) eqn:Hn.
    + apply (settled false); [|done]. apply in_ws. right. split; [done|].
      apply in_toUpdate. eauto.
    + exists o. split; [|done].
      unfold recKey. rewrite owned_lookup_marked by done. fold (recKey d).
      rewrite R2.
      * unfold Z1. rewrite recsAt_deletesZ.
        -- rewrite <- Ho. unfold owned, recKey.
           by rewrite (owned_lookup_marked a Z (Name d) (Type_ d)).
        -- intros z Hz Hk. apply (declared_name_untouched d z Hd). left.
           unfold recKey, lkey in Hk.
           apply mkKey_inj in Hk as [Hk _]; [done|by apply zone_types|done].
      * intros w [[_ Hw]|[_ Hw]]%in_ws Hk.
        -- apply in_toCreate in Hw as [_ Hw]. rewrite Hk in Hw. congruence.
        -- apply in_toUpdate in Hw as [Hw (o' & Ho' & Hn')].
           rewrite Hk in Hw, Ho'. fold desired in Hdes.
           assert (w.1 = d) as Hwd by congruence. rewrite Hwd in Hn'. congruence.
      * unfold recKey. by rewrite HasPrefix_mkKey.
  - apply (settled true).
    + apply in_ws. left. split; [done|]. by apply in_toCreate.
    + apply R5. apply in_ws. left. split; [done|]. by apply in_toCreate.
Qed.

(** After the pass every owned key is declared. *)
Lemma owned_declared (k : string) (o : Rec) :
  parseOwnedRecords a Z' !! k = Some o → is_Some (desired !! k).
Proof.
  intros Ho.
  apply parseOwnedRecords_sound in Ho as (z & Hz & -> & -> & Hp & Hm). simpl in Hp, Hm.
  destruct (writesZ_spec a D ws Z1 ws_good Z1_types) as (R1 & _).
  destruct (R1 z Hz) as [Hz1|(w & Hw & Hzw)].
  2:{ destruct (ws_good w Hw) as [Hdes Hdecl].
      destruct (written_lkey a w z Hdecl Hzw) as [->|Hk]; [by eexists|].
      unfold lkey in Hk. rewrite HasPrefix_mkKey in Hk. congruence. }
  pose proof (deletesZ_subseteq _ _ _ _ _ Hz1) as Hz0.
  destruct (decide (Exists (fun d => libdns.Name (libdns.rr z) = Name d) D)) as [Hex|Hnex].
  { apply Exists_exists in Hex as (d & Hd & Hn).
    destruct (names_declared z d Hz0 Hd Hn) as (d' & Hd' & <-).
    by apply buildDesired_is_Some. }
  assert (∀ d, d ∈ D → libdns.Name (libdns.rr z) ≠ Name d) as Hundeclared.
  { intros d Hd Hn. apply Hnex. apply Exists_exists. by exists d. }
  destruct Hm as (m & Hm & Hown & Hname).
  assert (m ∈ Z1) as Hm1.
  { destruct (R1 m Hm) as [?|(w & Hw & Hmw)]; [done|].
    destruct (ws_good w Hw) as [Hdes Hdecl].
    destruct (desired_declarable _ _ Hdes) as (_ & Hd & _).
    unfold written in Hmw. apply elem_of_cons in Hmw as [->|Hmw].
    - destruct Hdecl as (Hpw & _).
      rewrite toLibdnsRecord_Name in Hname. rewrite Hname, HasPrefix_app in Hpw. done.
    - destruct w.2; [|by apply elem_of_nil in Hmw].
      apply list_elem_of_singleton in Hmw as ->. simpl in Hname.
      apply append_inj_prefix in Hname. destruct (Hundeclared _ Hd). done. }
  pose proof (deletesZ_subseteq _ _ _ _ _ Hm1) as Hm0.
  assert (hasOwnMarker a Z (libdns.Name (libdns.rr z))) as Hmarked by (by exists m).
  destruct (parseOwnedRecords_complete a Z z Hz0 Hp Hmarked) as (z' & Hz' & Hk & Ho).
  fold owned in Ho.
  destruct (desired !! lkey z) as [d|] eqn:Hdes; [by eexists|].
  assert (lkey z ∈ toDelete p) as Hdel by (apply in_toDelete; eauto).
  destruct (deletesZ_marker_gone a owned (toDelete p) Z (lkey z) (project a z')) as [].
  - intros k' [Hk' _]%in_toDelete. done.
  - done.
  - done.
  - done.
  - fold Z1. exists m. split; [done|]. split; [done|]. simpl.
    apply lkey_eq in Hk as [-> _]; [done|by apply zone_types..].
Qed.

(** The plan computed after the pass is empty. *)
Lemma plan_after_pass_empty :
  diff (parseOwnedRecords a (passZ a owned p Z)) D = mkPlan [] [] [].
Proof.
  rewrite passZ_unfold. unfold diff. fold desired. f_equal.
  - apply elem_of_nil_inv. intros d [Hd Hnone]%elem_of_computeCreate.
    destruct (declared_settled d _ Hd) as (o & Ho & _). congruence.
  - apply elem_of_nil_inv. intros d [Hd (o & Ho & Hn)]%elem_of_computeUpdate.
    destruct (declared_settled d _ Hd) as (o' & Ho' & Hn'). congruence.
  - apply elem_of_nil_inv. intros k [[o Ho] Hnone]%elem_of_computeDelete.
    destruct (owned_declared k o Ho) as [d Hd]. fold desired in Hnone. congruence.
Qed.

End FixedPoint.


(** Runs a pass on concrete data: computes its result, then leaves the
    statement about that result. *)
Ltac run_pass :=
  match goal with
  | |- context [reconcileDomain ?a ?dom ?Z] =>
      let E := fresh "E" in
      destruct (reconcileDomain a dom Z) as [[[? ?] ?]|] eqn:E;
      vm_compute in E; [|discriminate E];
      injection E as <- <- <-
  end.



(** The pass of the lemma above deletes [old], creates [new] and updates
    [www]. *)
Example busy_plan :
  diff (parseOwnedRecords testApp busyRecords)
       [mkRecord "www" "A" "192.168.1.7" 300; mkRecord "new" "TXT" "hello" 0]
  = mkPlan [mkRecord "new" "TXT" "hello" 0] [mkRecord "www" "A" "192.168.1.7" 300]
           ["old:A"].
Proof. by vm_compute. Qed.

(** Further inputs on which a second pass still has work to do. *)

(** Deleting one record of a name deletes the marker that the other
    records of the name rely on: the A record stays, is no longer owned,
    and is planned for creation on the next pass. *)
Example shared_marker_deleted :
  let D := [mkRecord "www" "A" "192.168.1.100" 300] in
  let domain := mkDomain "example.com" D (Ideal.provider true true true) in
  toDelete (diff (parseOwnedRecords testApp sharedNameRecords) D) = ["www:TXT"]
  ∧ ∃ Z' events,
      reconcileDomain testApp domain sharedNameRecords = Some (Z', events, None)
      ∧ Z' = [libdns.Address "www" (300 * time.Second) (netip.Addr4 192 168 1 100)]
      ∧ diff (parseOwnedRecords testApp Z') D = mkPlan D [] [].
Proof.
  intros D domain. split; [vm_compute; reflexivity|].
  run_pass. do 2 eexists. split; [reflexivity|]. split; vm_compute; reflexivity.
Qed.

(** An address that is not written in canonical form is updated on every
    pass. *)
Example upper_case_address_updated_again :
  let D := [mkRecord "www" "AAAA" "2001:DB8::1" 300] in
  let domain := mkDomain "example.com" D (Ideal.provider true true true) in
  ∃ Z' events,
    reconcileDomain testApp domain [] = Some (Z', events, None)
    ∧ diff (parseOwnedRecords testApp Z') D = mkPlan [] D [].
Proof.
  intros D domain. run_pass. do 2 eexists. split; [reflexivity|].
  vm_compute. reflexivity.
Qed.

(** Without the delete capability the key planned for deletion stays. *)
Example no_deleter_no_progress :
  let domain := mkDomain "example.com" [] (Ideal.provider true true false) in
  ∃ Z' events,
    reconcileDomain testApp domain testRecords = Some (Z', events, None)
    ∧ diff (parseOwnedRecords testApp Z') [] = mkPlan [] [] ["www:A"].
Proof.
  intros domain. run_pass. do 2 eexists. split; [reflexivity|].
  vm_compute. reflexivity.
Qed.

(** The proviso on colons is needed: a key does not tell where the name
    ends.  The record [a] of type [b:c], made by hand, has the key of the
    owned record [a:b] of type [c]; the declared record [a] of type [b:c]
    is therefore planned as an update, and the pass sets it over the
    hand-made record. *)
Example manual_record_key_collision :
  let a := mkApp "caddy" in
  let ownedRec := libdns.Other (libdns.mkRR "a:b" (300 * time.Second) "c" "old") in
  let rec := libdns.Other (libdns.mkRR "a" (300 * time.Second) "b:c" "made by hand") in
  let snapshot := [makeTXTMarker a "a:b"; ownedRec; rec] in
  let declared := mkRecord "a" "b:c" "new" 300 in
  let domain := mkDomain "example.com" [declared] (Ideal.provider true true true) in
  ¬ hasOwnMarker a snapshot "a"
  ∧ lkey rec = lkey ownedRec
  ∧ toUpdate (diff (parseOwnedRecords a snapshot) [declared]) = [declared]
  ∧ ∃ Z' events,
      reconcileDomain a domain snapshot = Some (Z', events, None)
      ∧ Called (SetCall "example.com" [toLibdnsRecord a declared]) ∈ events
      ∧ (rec ∉ Z')
      ∧ toLibdnsRecord a declared ∈ Z'.
Proof.
  intros a ownedRec rec snapshot declared domain.
  split; [|split; [reflexivity|split; [by vm_compute|]]].
  - intros (m & Hm & Ho & Hn). in_snapshot Hm; by vm_compute in Ho, Hn.
  - run_pass. eexists _, _. split; [reflexivity|].
    split; [|split].
    + vm_compute. do 2 right. by left.
    + intros Hin.
      repeat (apply elem_of_cons in Hin as [Heq|Hin]; [by vm_compute in Heq|]).
      by apply elem_of_nil in Hin.
    + vm_compute. do 2 right. by left.
Qed.

(** The proviso on the type of the updated record is needed as well: with
    a snapshot free of colons, the declared record [a] of type [b:c] is
    still planned as an update, through the key of the owned record [a:b]
    of type [c]; it has the name of the hand-made record [a], but not its
    key. *)
Example update_with_name_of_manual_record :
  let a := mkApp "caddy" in
  let rec := libdns.Address "a" (300 * time.Second) (netip.Addr4 10 0 0 1) in
  let snapshot := [makeTXTMarker a "a:b";
                   libdns.Other (libdns.mkRR "a:b" (300 * time.Second) "c" "old"); rec] in
  let declared := mkRecord "a" "b:c" "new" 300 in
  ¬ hasOwnMarker a snapshot "a"
  ∧ (∀ x, x ∈ snapshot → colon_free (libdns.Type_ (libdns.rr x)))
  ∧ toUpdate (diff (parseOwnedRecords a snapshot) [declared]) = [declared]
  ∧ Name declared = libdns.Name (libdns.rr rec)
  ∧ recKey declared ≠ lkey rec.
Proof.
  intros a rec snapshot declared.
  split; [|split; [|split; [by vm_compute|split; [reflexivity|by vm_compute]]]].
  - intros (m & Hm & Ho & Hn). in_snapshot Hm; by vm_compute in Ho, Hn.
  - intros x Hx. in_snapshot Hx; reflexivity.
Qed.

(** * Further properties of the engine *)

(** ** Codec *)

(** X1.  The type switch of [extractValue] returns, for every record type
    of [libdns], the data field of the record's [RR()]: the MX case formats
    preference and target as [libdns] does, and the other cases pick the
    field that [RR()] copies. *)
Theorem extractValue_is_RR_Data (a : App) (rec : libdns.RecordT) :
  extractValue a rec = libdns.Data (libdns.rr rec).
Proof. by destruct rec. Qed.

Lemma wrap64_small (z : Z) :
  - 2 ^ 63 ≤ z < 2 ^ 63 → time.wrap64 z = z.
Proof. intros Hz. unfold time.wrap64. rewrite Z.mod_small; lia. Qed.

Lemma toLibdnsRecord_TTL (a : App) (r : Rec) :
  libdns.TTL (libdns.rr (toLibdnsRecord a r))
  = if time.seconds (TTL r) =? 0 then 300 * time.Second else time.seconds (TTL r).
Proof.
  unfold toLibdnsRecord.
  destruct (String.eqb (Type_ r) "A" || String.eqb (Type_ r) "AAAA").
  - by destruct (netip.ParseAddr (Value r)).
  - destruct (String.eqb (Type_ r) "TXT"); [done|].
    by destruct (String.eqb (Type_ r) "CNAME").
Qed.

(** X2.  For a declared TTL between -9223372036 and 9223372036 seconds (the
    range in which the product with [time.Second] does not wrap), the
    provider record carries 300 seconds when the TTL is zero and the
    declared number of seconds otherwise. *)
Theorem toLibdnsRecord_default_TTL (a : App) (r : Rec) :
  -9223372036 ≤ TTL r ≤ 9223372036 →
  libdns.TTL (libdns.rr (toLibdnsRecord a r))
  = if TTL r =? 0 then 300 * time.Second else TTL r * time.Second.
Proof.
  intros Hrange. rewrite toLibdnsRecord_TTL. unfold time.seconds, time.Second in *.
  rewrite wrap64_small by lia.
  destruct (TTL r =? 0) eqn:E.
  - apply Z.eqb_eq in E. by rewrite E.
  - apply Z.eqb_neq in E. destruct (TTL r * 1000000000 =? 0) eqn:E'; [|done].
    apply Z.eqb_eq in E'. lia.
Qed.

Lemma toLibdnsRecord_default_TTL_witness :
  let r := mkRecord "mail" "A" "192.0.2.2" 3600 in
  libdns.TTL (libdns.rr (toLibdnsRecord testApp r))
  = if TTL r =? 0 then 300 * time.Second else TTL r * time.Second.
Proof.
  intros r. apply (toLibdnsRecord_default_TTL testApp r). simpl. lia.
Defined.

(** X3.  The provider record keeps the declared name.  When the declared
    type is A or AAAA and the value parses as an address, the record type
    follows the family of the address, whatever was declared, and the data
    is the canonical text of the address; in every other case, an address
    that does not parse included, type and data are the declared type and
    the raw value. *)
Theorem toLibdnsRecord_shape (a : App) (r : Rec) :
  let x := libdns.rr (toLibdnsRecord a r) in
  libdns.Name x = Name r
  ∧ match (if String.eqb (Type_ r) "A" || String.eqb (Type_ r) "AAAA"
           then netip.ParseAddr (Value r) else None) with
    | Some ip =>
        libdns.Type_ x = (if netip.Is6 ip then "AAAA" else "A")
        ∧ libdns.Data x = netip.String ip
    | None => libdns.Type_ x = Type_ r ∧ libdns.Data x = Value r
    end.
Proof.
  simpl. split; [apply toLibdnsRecord_Name|]. unfold toLibdnsRecord.
  destruct (String.eqb (Type_ r) "A" || String.eqb (Type_ r) "AAAA").
  - by destruct (netip.ParseAddr (Value r)).
  - destruct (String.eqb (Type_ r) "TXT") eqn:E1.
    { apply String.eqb_eq in E1. by rewrite E1. }
    destruct (String.eqb (Type_ r) "CNAME") eqn:E2; [|done].
    apply String.eqb_eq in E2. by rewrite E2.
Qed.

(** ** Ownership classification *)

(** X4.  The keys of the owned index are exactly the keys of the snapshot
    records that are no markers and whose name a valid marker of this
    instance claims; every entry is filed under the key of its own name and
    type; and the set of keys does not depend on the order of the snapshot,
    so a marker may come before or after the record it claims. *)
Theorem owned_index_keys (a : App) (snapshot : list libdns.RecordT) :
  (∀ k, is_Some (parseOwnedRecords a snapshot !! k)
        ↔ ∃ rec, rec ∈ snapshot
                 ∧ Strings.HasPrefix (libdns.Name (libdns.rr rec)) txtPrefix = false
                 ∧ hasOwnMarker a snapshot (libdns.Name (libdns.rr rec))
                 ∧ lkey rec = k)
  ∧ (∀ k r, parseOwnedRecords a snapshot !! k = Some r → k = recKey r)
  ∧ (∀ snapshot', snapshot ≡ₚ snapshot' →
        dom (parseOwnedRecords a snapshot') = dom (parseOwnedRecords a snapshot)).
Proof.
  assert (∀ s k, is_Some (parseOwnedRecords a s !! k)
                 ↔ ∃ rec, rec ∈ s
                          ∧ Strings.HasPrefix (libdns.Name (libdns.rr rec)) txtPrefix = false
                          ∧ hasOwnMarker a s (libdns.Name (libdns.rr rec))
                          ∧ lkey rec = k) as Hkeys.
  { intros s k. split.
    - intros [r Hr]. apply parseOwnedRecords_sound in Hr as (rec & Hin & -> & -> & Hp & Hm).
      by exists rec.
    - intros (rec & Hin & Hp & Hm & <-).
      destruct (parseOwnedRecords_complete a s rec Hin Hp Hm) as (rec' & _ & _ & ->).
      by eexists. }
  split; [apply Hkeys|]. split.
  - intros k r Hr. by apply parseOwnedRecords_sound in Hr as (rec & _ & -> & -> & _).
  - intros s' Hperm. apply set_eq. intros k. rewrite !elem_of_dom, !Hkeys.
    assert (∀ s1 s2, s1 ≡ₚ s2 →
              (∃ rec, rec ∈ s1
                 ∧ Strings.HasPrefix (libdns.Name (libdns.rr rec)) txtPrefix = false
                 ∧ hasOwnMarker a s1 (libdns.Name (libdns.rr rec))
                 ∧ lkey rec = k) →
              ∃ rec, rec ∈ s2
                 ∧ Strings.HasPrefix (libdns.Name (libdns.rr rec)) txtPrefix = false
                 ∧ hasOwnMarker a s2 (libdns.Name (libdns.rr rec))
                 ∧ lkey rec = k) as Hmono.
    { intros s1 s2 H12 (rec & Hin & Hp & (m & Hm & Hown) & Hk).
      exists rec. split; [by rewrite <- H12|]. split; [done|]. split; [|done].
      exists m. split; [by rewrite <- H12|done]. }
    split; apply Hmono; done.
Qed.

(** X5.  In a zone that holds no valid marker of this instance the owned
    index is empty: the plan deletes nothing, updates nothing, and creates
    every declared key. *)
Theorem unmarked_zone_only_creates (a : App) (snapshot : list libdns.RecordT)
    (D : list Rec) :
  (∀ m, m ∈ snapshot → isOwnMarker a (libdns.rr m) = false) →
  let p := diff (parseOwnedRecords a snapshot) D in
  parseOwnedRecords a snapshot = ∅
  ∧ toDelete p = []
  ∧ toUpdate p = []
  ∧ (∀ d, d ∈ D → recKey d ∈ recKey <$> toCreate p).
Proof.
  intros Hno p.
  assert (parseOwnedRecords a snapshot = ∅) as Hempty.
  { apply map_empty. intros k.
    destruct (parseOwnedRecords a snapshot !! k) as [r|] eqn:Hr; [|done].
    apply parseOwnedRecords_sound in Hr as (_ & _ & _ & _ & _ & m & Hm & Hown & _).
    rewrite (Hno m Hm) in Hown. done. }
  split; [done|]. subst p. rewrite Hempty. unfold diff. simpl. split; [|split].
  - apply elem_of_nil_inv. intros k [[o Ho] _]%elem_of_computeDelete. done.
  - apply elem_of_nil_inv. intros d [_ (o & Ho & _)]%elem_of_computeUpdate. done.
  - intros d Hd. destruct (buildDesired_is_Some D d Hd) as [r Hr].
    destruct (buildDesired_key _ _ _ Hr) as [Hk _].
    apply list_elem_of_fmap. exists r. split; [done|].
    apply elem_of_computeCreate. by rewrite Hk.
Qed.

Lemma unmarked_zone_only_creates_witness :
  let snapshot := [libdns.Address "manual" (300 * time.Second) (netip.Addr4 10 0 0 1);
                   libdns.TXT "_cdr.api" (300 * time.Second)
                     "owner=other-caddy,heritage=caddy-dns-register"] in
  let D := [mkRecord "www" "A" "192.0.2.1" 0] in
  let p := diff (parseOwnedRecords testApp snapshot) D in
  parseOwnedRecords testApp snapshot = ∅
  ∧ toDelete p = []
  ∧ toUpdate p = []
  ∧ (∀ d, d ∈ D → recKey d ∈ recKey <$> toCreate p).
Proof.
  intros snapshot D.
  apply (unmarked_zone_only_creates testApp snapshot D).
  intros m Hm. in_snapshot Hm; reflexivity.
Defined.

(** ** Diff *)

(** X6.  No key is planned twice: the keys of [toDelete], of [toCreate] and
    of [toUpdate] are pairwise disjoint, so one pass never deletes a key
    that it also creates or updates.  Every key of either index is in one
    of the three lists or is a no-op. *)
Theorem plan_partition (O : gmap string Rec) (D : list Rec) :
  let p := diff O D in
  (∀ k, k ∈ toDelete p → k ∉ recKey <$> toCreate p)
  ∧ (∀ k, k ∈ toDelete p → k ∉ recKey <$> toUpdate p)
  ∧ (∀ k, k ∈ recKey <$> toCreate p → k ∉ recKey <$> toUpdate p)
  ∧ (∀ k, is_Some (O !! k) ∨ is_Some (buildDesired D !! k) →
          k ∈ toDelete p
          ∨ k ∈ recKey <$> toCreate p
          ∨ k ∈ recKey <$> toUpdate p
          ∨ ∃ o r, O !! k = Some o ∧ buildDesired D !! k = Some r
                   ∧ needsUpdate o r = false).
Proof.
  unfold diff. simpl. split; [|split; [|split]].
  - intros k [_ Hnone]%elem_of_computeDelete
             (r & -> & [Hr _]%elem_of_computeCreate)%list_elem_of_fmap. congruence.
  - intros k [_ Hnone]%elem_of_computeDelete
             (r & -> & [Hr _]%elem_of_computeUpdate)%list_elem_of_fmap. congruence.
  - intros k (r & -> & [_ Hnone]%elem_of_computeCreate)%list_elem_of_fmap
             (r' & Hk & [_ (o & Ho & _)]%elem_of_computeUpdate)%list_elem_of_fmap.
    congruence.
  - intros k Hk.
    destruct (O !! k) as [o|] eqn:Ho, (buildDesired D !! k) as [r|] eqn:Hr.
    + destruct (buildDesired_key _ _ _ Hr) as [<- _].
      destruct (needsUpdate o r) eqn:Hn.
      * right; right; left. apply list_elem_of_fmap. exists r. split; [done|].
        apply elem_of_computeUpdate. eauto.
      * right; right; right. eauto.
    + left. apply elem_of_computeDelete. eauto.
    + destruct (buildDesired_key _ _ _ Hr) as [<- _].
      right; left. apply list_elem_of_fmap. exists r. split; [done|].
      by apply elem_of_computeCreate.
    + destruct Hk as [[? ?]|[? ?]]; done.
Qed.

(** X7.  With no record declared, the plan creates and updates nothing
    and deletes exactly the keys of the owned index. *)
Theorem empty_configuration_deletes_owned (O : gmap string Rec) :
  toCreate (diff O []) = []
  ∧ toUpdate (diff O []) = []
  ∧ (∀ k, k ∈ toDelete (diff O []) ↔ is_Some (O !! k)).
Proof.
  unfold diff. simpl. split; [done|]. split; [done|].
  intros k. rewrite elem_of_computeDelete. unfold buildDesired. simpl.
  rewrite lookup_empty. tauto.
Qed.

(** ** Markers *)

Lemma length_append (s t : string) :
  String.length (s ++ t) = (String.length s + String.length t)%nat.
Proof.
  induction s as [|c s IH]; [reflexivity|]. rewrite append_cons. simpl. by rewrite IH.
Qed.

Lemma append_inj_suffix (s t u : string) : s ++ u = t ++ u → s = t.
Proof.
  revert t. induction s as [|c s IH]; intros [|d t] H.
  - done.
  - apply (f_equal String.length) in H. rewrite append_nil_l, append_cons in H.
    simpl in H. rewrite length_append in H. lia.
  - apply (f_equal String.length) in H. rewrite append_nil_l, append_cons in H.
    simpl in H. rewrite length_append in H. lia.
  - rewrite !append_cons in H. injection H as -> H. f_equal. by apply IH.
Qed.

(** X8.  The classification of one instance accepts the marker written by
    another exactly when both have the same owner ID: two instances with
    different owner IDs never take each other's markers for their own. *)
Theorem marker_of_other_owner (a b : App) (name : string) :
  isOwnMarker b (libdns.rr (makeTXTMarker a name)) = true ↔ OwnerID a = OwnerID b.
Proof.
  rewrite isOwnMarker_spec. simpl. split.
  - intros (_ & _ & [Heq|Heq]).
    + unfold expectedValue in Heq.
      apply append_inj_prefix in Heq. by apply append_inj_suffix in Heq.
    + unfold expectedValue, quoted, dquote in Heq.
      rewrite append_cons in Heq. discriminate Heq.
  - intros Heq. split; [done|]. split; [apply HasPrefix_app|].
    left. unfold expectedValue. by rewrite Heq.
Qed.

(** X9.  What a create writes is owned at the next classification: in
    every zone that holds the provider record of a declared record and the
    marker [makeTXTMarker] builds for its name, the key of that provider
    record is in the owned index (the name being no marker name). *)
Theorem written_record_is_owned (a : App) (Z : list libdns.RecordT) (d : Rec) :
  toLibdnsRecord a d ∈ Z →
  makeTXTMarker a (Name d) ∈ Z →
  Strings.HasPrefix (Name d) txtPrefix = false →
  ∃ rec, rec ∈ Z ∧ lkey rec = lkey (toLibdnsRecord a d)
         ∧ parseOwnedRecords a Z !! lkey (toLibdnsRecord a d) = Some (project a rec).
Proof.
  intros Hrec Hmarker Hp.
  apply (parseOwnedRecords_complete a Z (toLibdnsRecord a d)).
  - done.
  - by rewrite toLibdnsRecord_Name.
  - rewrite toLibdnsRecord_Name. exists (makeTXTMarker a (Name d)).
    split; [done|]. split; [apply makeTXTMarker_isOwnMarker|done].
Qed.

Lemma written_record_is_owned_witness :
  let d := mkRecord "www" "A" "192.0.2.1" 300 in
  let Z := [libdns.Address "other" (60 * time.Second) (netip.Addr4 10 0 0 1);
            toLibdnsRecord testApp d; makeTXTMarker testApp "www"] in
  ∃ rec, rec ∈ Z ∧ lkey rec = lkey (toLibdnsRecord testApp d)
         ∧ parseOwnedRecords testApp Z !! lkey (toLibdnsRecord testApp d)
           = Some (project testApp rec).
Proof.
  intros d Z. apply (written_record_is_owned testApp Z d).
  - unfold Z. right. by left.
  - unfold Z. right. right. by left.
  - reflexivity.
Defined.

(** ** Passes *)

Section PassFacts.
Context {St : Type}.
Implicit Types (s : St) (domain : Domain St).

Lemma capable_spec domain :
  capable domain = true
  ↔ is_Some (RecordGetter (provider domain))
    ∧ (is_Some (RecordSetter (provider domain))
       ∨ is_Some (RecordAppender (provider domain))).
Proof.
  unfold capable.
  destruct (RecordGetter (provider domain)), (RecordSetter (provider domain)),
    (RecordAppender (provider domain)); split;
    try done; try (intros _; split; eauto);
    intros [[? ?] [[? ?]|[? ?]]]; done.
Qed.

Lemma reconcileDomain_incapable (a : App) domain s :
  capable domain = false →
  ∃ e, reconcileDomain a domain s = Some (s, [], Some e).
Proof.
  unfold capable, reconcileDomain.
  destruct (RecordGetter (provider domain)); [|eauto].
  destruct (RecordSetter (provider domain)), (RecordAppender (provider domain));
    try done; eauto.
Qed.

Lemma reconcileDomain_fetch_failed (a : App) domain s s0 (getter : Getter) (e0 : string) :
  RecordGetter (provider domain) = Some getter →
  capable domain = true →
  getter s (Zone domain) = (s0, Err e0) →
  reconcileDomain a domain s
  = Some (s0, [Called (GetCall (Zone domain))], Some ("getting existing records: " ++ e0)).
Proof.
  intros Hget Hcap Hfetch. unfold capable, reconcileDomain in *. rewrite Hget in *.
  destruct (RecordSetter (provider domain)), (RecordAppender (provider domain));
    try done; by rewrite Hfetch.
Qed.

Lemma elem_of_deleteReports (a : App) (zone : string) (owned : gmap string Rec)
    (keys : list string) (chunks : list (list Event)) (c : Call) :
  Forall2 (deleteReport a zone owned) keys chunks →
  Called c ∈ concat chunks →
  ∃ key rec, key ∈ keys ∧ owned !! key = Some rec
             ∧ c = DeleteCall zone [toLibdnsRecord a rec; makeTXTMarker a (Name rec)].
Proof.
  induction 1 as [|key chunk keys chunks (rec & res & Hrec & ->) _ IH]; simpl.
  - intros []%elem_of_nil.
  - rewrite !elem_of_cons. intros [Hc|[Hc|Hin]].
    + injection Hc as ->. exists key, rec. split; [by left|done].
    + by destruct res.
    + destruct (IH Hin) as (k & r & Hk & Hr). exists k, r. split; [by right|done].
Qed.

Lemma elem_of_createReports (a : App) (hasSetter : bool) (zone : string)
    (recs : list Rec) (chunks : list (list Event)) (c : Call) :
  Forall2 (createReport a hasSetter zone) recs chunks →
  Called c ∈ concat chunks →
  ∃ rec, rec ∈ recs
         ∧ c = (if hasSetter then SetCall else AppendCall) zone
                 [toLibdnsRecord a rec; makeTXTMarker a (Name rec)].
Proof.
  induction 1 as [|rec chunk recs chunks (res & ->) _ IH]; simpl.
  - intros []%elem_of_nil.
  - rewrite !elem_of_cons. intros [Hc|[Hc|Hin]].
    + injection Hc as ->. exists rec. split; [by left|done].
    + by destruct res.
    + destruct (IH Hin) as (r & Hr & Hcall). exists r. split; [by right|done].
Qed.

Lemma elem_of_updateReports (a : App) (zone : string)
    (recs : list Rec) (chunks : list (list Event)) (c : Call) :
  Forall2 (updateReport a zone) recs chunks →
  Called c ∈ concat chunks →
  ∃ rec, rec ∈ recs ∧ c = SetCall zone [toLibdnsRecord a rec].
Proof.
  induction 1 as [|rec chunk recs chunks (res & ->) _ IH]; simpl.
  - intros []%elem_of_nil.
  - rewrite !elem_of_cons. intros [Hc|[Hc|Hin]].
    + injection Hc as ->. exists rec. split; [by left|done].
    + by destruct res.
    + destruct (IH Hin) as (r & Hr & Hcall). exists r. split; [by right|done].
Qed.

(** The provider calls of a pass whose fetch succeeds. *)
Lemma pass_calls (a : App) domain s s0 (getter : Getter)
    (existing : list libdns.RecordT) :
  RecordGetter (provider domain) = Some getter →
  capable domain = true →
  getter s (Zone domain) = (s0, Ok existing) →
  let owned := parseOwnedRecords a existing in
  let p := diff owned (Records domain) in
  ∃ s' events,
    reconcileDomain a domain s = Some (s', events, None)
    ∧ ∀ c, Called c ∈ events →
        c = GetCall (Zone domain)
        ∨ (∃ key rec, key ∈ toDelete p ∧ owned !! key = Some rec
             ∧ c = DeleteCall (Zone domain)
                     [toLibdnsRecord a rec; makeTXTMarker a (Name rec)])
        ∨ (∃ rec, rec ∈ toCreate p
             ∧ c = (if bool_decide (is_Some (RecordSetter (provider domain)))
                    then SetCall else AppendCall) (Zone domain)
                     [toLibdnsRecord a rec; makeTXTMarker a (Name rec)])
        ∨ (∃ rec, rec ∈ toUpdate p ∧ c = SetCall (Zone domain) [toLibdnsRecord a rec]).
Proof.
  intros Hget [_ Hcap]%capable_spec Hfetch owned p.
  destruct (reconcileDomain_trace a domain s s0 getter existing Hget Hcap Hfetch)
    as (s' & deleted & created & updated & Hrun & Hdel & Hcre & Hupd).
  fold owned p in Hrun, Hdel, Hcre, Hupd.
  eexists s', _. split; [exact Hrun|].
  intros c. rewrite !elem_of_cons, !elem_of_app. intros [Hc|[Hc|[Hin|[Hin|Hin]]]].
  - injection Hc as ->. by left.
  - done.
  - right; left. destruct (RecordDeleter (provider domain)).
    + by apply (elem_of_deleteReports a _ _ _ deleted).
    + subst deleted. by apply elem_of_nil in Hin.
  - right; right; left. by apply (elem_of_createReports a _ _ _ created).
  - right; right; right. destruct (RecordSetter (provider domain)).
    + by apply (elem_of_updateReports a _ _ updated).
    + subst updated. by apply elem_of_nil in Hin.
Qed.

(** The three outcomes of a pass. *)
Lemma reconcileDomain_cases (a : App) domain s :
  (capable domain = false ∧ ∃ e, reconcileDomain a domain s = Some (s, [], Some e))
  ∨ (∃ getter s0 e0,
        RecordGetter (provider domain) = Some getter
        ∧ capable domain = true
        ∧ getter s (Zone domain) = (s0, Err e0)
        ∧ reconcileDomain a domain s
          = Some (s0, [Called (GetCall (Zone domain))],
                  Some ("getting existing records: " ++ e0)))
  ∨ (∃ getter s0 existing,
        RecordGetter (provider domain) = Some getter
        ∧ capable domain = true
        ∧ getter s (Zone domain) = (s0, Ok existing)).
Proof.
  destruct (capable domain) eqn:Hcap.
  - right. destruct (proj1 (capable_spec domain) Hcap) as [[getter Hget] _].
    destruct (getter s (Zone domain)) as [s0 [existing|e0]] eqn:Hfetch.
    + right. by exists getter, s0, existing.
    + left. exists getter, s0, e0. split; [done|]. split; [done|]. split; [done|].
      by apply (reconcileDomain_fetch_failed a domain s s0 getter e0).
  - left. split; [done|]. by apply reconcileDomain_incapable.
Qed.

End PassFacts.

(** X10.  Whatever the provider does, a pass returns, and every delete
    request it sends is for the zone of the domain and carries exactly two
    records: the provider form of a record that the fetch returned under a
    name claimed by a valid marker of this instance and whose key no
    declared record has, and the marker of that name.  A record under an
    unclaimed name is never put in a delete request. *)
Theorem delete_requests_name_owned_records {St : Type} (a : App) (domain : Domain St)
    (s : St) :
  ∃ s' events err,
    reconcileDomain a domain s = Some (s', events, err)
    ∧ ∀ zone recs, Called (DeleteCall zone recs) ∈ events →
        zone = Zone domain
        ∧ ∃ getter s0 existing x,
            RecordGetter (provider domain) = Some getter
            ∧ getter s (Zone domain) = (s0, Ok existing)
            ∧ x ∈ existing
            ∧ Strings.HasPrefix (libdns.Name (libdns.rr x)) txtPrefix = false
            ∧ hasOwnMarker a existing (libdns.Name (libdns.rr x))
            ∧ buildDesired (Records domain) !! lkey x = None
            ∧ recs = [toLibdnsRecord a (project a x);
                      makeTXTMarker a (libdns.Name (libdns.rr x))].
Proof.
  destruct (reconcileDomain_cases a domain s)
    as [[_ [e Hrun]]|[(getter & s0 & e0 & _ & _ & _ & Hrun)
                     |(getter & s0 & existing & Hget & Hcap & Hfetch)]].
  - exists s, [], (Some e). split; [done|]. by intros ?? ?%elem_of_nil.
  - eexists s0, _, _. split; [exact Hrun|].
    intros zone recs Hin. apply list_elem_of_singleton in Hin. discriminate Hin.
  - destruct (pass_calls a domain s s0 getter existing Hget Hcap Hfetch)
      as (s' & events & Hrun & Hcalls).
    exists s', events, None. split; [done|]. intros zone recs Hin.
    destruct (Hcalls _ Hin) as [Hc|[(key & rec & Hkey & Hrec & Hc)
                                   |[(rec & _ & Hc)|(rec & _ & Hc)]]];
      [discriminate Hc| |by destruct (bool_decide _)|discriminate Hc].
    injection Hc as -> ->. split; [done|].
    unfold diff in Hkey. simpl in Hkey.
    apply elem_of_computeDelete in Hkey as [_ Hnone].
    apply parseOwnedRecords_sound in Hrec as (x & Hx & -> & -> & Hp & Hm).
    by exists getter, s0, existing, x.
Qed.

(** X11.  Every write request of a pass is for the zone of the domain and
    carries the provider form of a declared record, the one declared last
    for its key: with the marker of its name in a create, alone in an
    update.  [AppendRecords] is called only when the provider has no
    [SetRecords]. *)
Theorem write_requests_carry_declared_records {St : Type} (a : App) (domain : Domain St)
    (s : St) :
  ∃ s' events err,
    reconcileDomain a domain s = Some (s', events, err)
    ∧ (∀ zone recs, Called (SetCall zone recs) ∈ events →
          zone = Zone domain
          ∧ ∃ d, d ∈ Records domain
                 ∧ buildDesired (Records domain) !! recKey d = Some d
                 ∧ (recs = [toLibdnsRecord a d; makeTXTMarker a (Name d)]
                    ∨ recs = [toLibdnsRecord a d]))
    ∧ (∀ zone recs, Called (AppendCall zone recs) ∈ events →
          zone = Zone domain
          ∧ RecordSetter (provider domain) = None
          ∧ ∃ d, d ∈ Records domain
                 ∧ buildDesired (Records domain) !! recKey d = Some d
                 ∧ recs = [toLibdnsRecord a d; makeTXTMarker a (Name d)]).
Proof.
  destruct (reconcileDomain_cases a domain s)
    as [[_ [e Hrun]]|[(getter & s0 & e0 & _ & _ & _ & Hrun)
                     |(getter & s0 & existing & Hget & Hcap & Hfetch)]].
  - exists s, [], (Some e). split; [done|]. split; by intros ?? ?%elem_of_nil.
  - eexists s0, _, _. split; [exact Hrun|].
    split; intros zone recs Hin; apply list_elem_of_singleton in Hin; discriminate Hin.
  - destruct (pass_calls a domain s s0 getter existing Hget Hcap Hfetch)
      as (s' & events & Hrun & Hcalls).
    exists s', events, None. split; [done|].
    assert (∀ d, d ∈ toCreate (diff (parseOwnedRecords a existing) (Records domain))
                 ∨ d ∈ toUpdate (diff (parseOwnedRecords a existing) (Records domain)) →
                 d ∈ Records domain
                 ∧ buildDesired (Records domain) !! recKey d = Some d) as Hdecl.
    { unfold diff. simpl.
      intros d [[Hd _]%elem_of_computeCreate|[Hd _]%elem_of_computeUpdate];
        (split; [by apply (buildDesired_key _ _ _ Hd)|done]). }
    split; intros zone recs Hin;
      destruct (Hcalls _ Hin) as [Hc|[(key & rec & _ & _ & Hc)
                                     |[(rec & Hrec & Hc)|(rec & Hrec & Hc)]]];
      try discriminate Hc.
    + destruct (bool_decide _); [|discriminate Hc]. injection Hc as -> ->.
      split; [done|]. exists rec.
      destruct (Hdecl rec) as [? ?]; [by left|]. eauto.
    + injection Hc as -> ->. split; [done|]. exists rec.
      destruct (Hdecl rec) as [? ?]; [by right|]. eauto.
    + destruct (bool_decide (is_Some (RecordSetter (provider domain)))) eqn:Hset;
        [discriminate Hc|]. injection Hc as -> ->.
      split; [done|]. split.
      { apply bool_decide_eq_false in Hset.
        destruct (RecordSetter (provider domain)); [|done]. destruct Hset. by eexists. }
      exists rec. destruct (Hdecl rec) as [? ?]; [by left|]. eauto.
Qed.

(** X12.  A pass over a zone that is in sync only reads: when the plan
    computed from the fetched records is empty, the fetch is the only
    provider call, the summary the only log entry, the provider is left in
    the state in which the fetch left it, and the pass returns no error. *)
Theorem in_sync_pass_only_reads {St : Type} (a : App) (domain : Domain St) (s s0 : St)
    (getter : Getter) (existing : list libdns.RecordT) :
  RecordGetter (provider domain) = Some getter →
  capable domain = true →
  getter s (Zone domain) = (s0, Ok existing) →
  diff (parseOwnedRecords a existing) (Records domain) = mkPlan [] [] [] →
  reconcileDomain a domain s
  = Some (s0, [Called (GetCall (Zone domain)); logPlan (Zone domain) (mkPlan [] [] [])],
          None).
Proof.
  intros Hget Hcap Hfetch Hplan. unfold capable, reconcileDomain in *. rewrite Hget in *.
  assert (applyPlan a domain (parseOwnedRecords a existing) (mkPlan [] [] []) s0
          = Some (s0, [])) as Hrun.
  { unfold applyPlan, deletePhase, createPhase, updatePhase. simpl.
    by destruct (RecordDeleter (provider domain)), (RecordSetter (provider domain)). }
  destruct (RecordSetter (provider domain)), (RecordAppender (provider domain));
    try done; by rewrite Hfetch, Hplan, Hrun.
Qed.

Lemma in_sync_pass_only_reads_witness :
  let domain := mkDomain "example.com" [mkRecord "www" "A" "192.168.1.100" 300]
                         (Ideal.provider true true true) in
  reconcileDomain testApp domain testRecords
  = Some (testRecords,
          [Called (GetCall "example.com"); logPlan "example.com" (mkPlan [] [] [])], None).
Proof.
  intros domain.
  apply (in_sync_pass_only_reads testApp domain testRecords testRecords
           Ideal.GetRecords testRecords).
  - reflexivity.
  - reflexivity.
  - reflexivity.
  - by vm_compute.
Defined.

(** X13.  A pass that returns an error has written nothing and logged
    nothing.  Either a capability is missing, and then no provider call was
    made and the provider state is unchanged; or the fetch failed, and then
    the fetch is the only call and the error wraps the provider's.  The
    failure of a delete, create or update is therefore never the error of
    the pass. *)
Theorem failed_pass_writes_nothing {St : Type} (a : App) (domain : Domain St) (s s' : St)
    (events : list Event) (e : string) :
  reconcileDomain a domain s = Some (s', events, Some e) →
  (capable domain = false ∧ s' = s ∧ events = [])
  ∨ (∃ getter e0,
        RecordGetter (provider domain) = Some getter
        ∧ getter s (Zone domain) = (s', Err e0)
        ∧ events = [Called (GetCall (Zone domain))]
        ∧ e = "getting existing records: " ++ e0).
Proof.
  intros Hrun.
  destruct (reconcileDomain_cases a domain s)
    as [[Hcap [e1 Hrun1]]|[(getter & s0 & e0 & Hget & _ & Hfetch & Hrun1)
                          |(getter & s0 & existing & Hget & Hcap & Hfetch)]].
  - left. rewrite Hrun1 in Hrun. by injection Hrun as <- <- _.
  - right. rewrite Hrun1 in Hrun. injection Hrun as <- <- <-. by exists getter, e0.
  - destruct (pass_calls a domain s s0 getter existing Hget Hcap Hfetch)
      as (s1 & events1 & Hrun1 & _).
    rewrite Hrun1 in Hrun. discriminate Hrun.
Qed.

Lemma failed_pass_writes_nothing_witness :
  let domain := mkDomain "example.com" [mkRecord "www" "A" "192.0.2.1" 300] downProvider in
  (capable domain = false ∧ tt = tt ∧ [Called (GetCall "example.com")] = [])
  ∨ (∃ getter e0,
        RecordGetter (provider domain) = Some getter
        ∧ getter tt (Zone domain) = (tt, Err e0)
        ∧ [Called (GetCall "example.com")] = [Called (GetCall (Zone domain))]
        ∧ "getting existing records: connection refused"
          = "getting existing records: " ++ e0).
Proof.
  intros domain.
  apply (failed_pass_writes_nothing testApp domain tt tt
           [Called (GetCall "example.com")]
           "getting existing records: connection refused").
  reflexivity.
Defined.

(** X14.  Every key that a plan built from a fetched snapshot holds for
    deletion splits at its first colon into two parts and is a key of the
    owned index: within a pass the delete loop never takes its [continue]
    and never reads a nil [owned[key]]. *)
Theorem planned_deletes_well_formed (a : App) (existing : list libdns.RecordT)
    (D : list Rec) :
  Forall (fun key => length (Strings.SplitN2 key ":"%char) = 2%nat
                     ∧ is_Some (parseOwnedRecords a existing !! key))
         (toDelete (diff (parseOwnedRecords a existing) D)).
Proof.
  apply Forall_forall. intros key Hkey. by apply (toDelete_well_formed a existing D).
Qed.

(** X15.  When several fetched records have the same name and type, the
    owned index holds the last of them only: a claimed record after which
    the snapshot has no record of its key is the entry of that key,
    whatever came before. *)
Theorem owned_index_keeps_last (a : App) (before after : list libdns.RecordT)
    (y : libdns.RecordT) :
  let snapshot := (before ++ y :: after)%list in
  Strings.HasPrefix (libdns.Name (libdns.rr y)) txtPrefix = false →
  hasOwnMarker a snapshot (libdns.Name (libdns.rr y)) →
  (∀ z, z ∈ after → lkey z ≠ lkey y) →
  parseOwnedRecords a snapshot !! lkey y = Some (project a y).
Proof.
  intros snapshot Hp Hm Hafter. unfold parseOwnedRecords.
  rewrite collectOwned_lookup. subst snapshot.
  rewrite filter_app, filter_cons_True.
  - rewrite (filter_none _ after).
    + by rewrite last_snoc.
    + intros z Hz [_ Hk]. by apply (Hafter z).
  - split; [|done]. unfold claimed. rewrite Hp. simpl.
    apply findMarkers_spec. by right.
Qed.

Lemma owned_index_keeps_last_witness :
  let before := [libdns.TXT "_cdr.www" (300 * time.Second)
                   "owner=test-caddy,heritage=caddy-dns-register";
                 libdns.Address "www" (300 * time.Second) (netip.Addr4 192 0 2 1)] in
  let y := libdns.Address "www" (300 * time.Second) (netip.Addr4 192 0 2 2) in
  parseOwnedRecords testApp (before ++ y :: [])%list !! lkey y = Some (project testApp y).
Proof.
  intros before y. apply (owned_index_keeps_last testApp before [] y).
  - reflexivity.
  - eexists. split; [by left|]. split; reflexivity.
  - intros z Hz. by apply elem_of_nil in Hz.
Defined.

(** ** Start-up and provisioning *)

Lemma reconcileDomain_capable_fetches {St : Type} (a : App) (domain : Domain St) (s : St) :
  capable domain = true →
  ∃ s' events err,
    reconcileDomain a domain s = Some (s', Called (GetCall (Zone domain)) :: events, err).
Proof.
  intros Hcap.
  destruct (reconcileDomain_cases a domain s)
    as [[Hno _]|[(getter & s0 & e0 & _ & _ & _ & Hrun)
                |(getter & s0 & existing & Hget & _ & Hfetch)]].
  - congruence.
  - eauto.
  - apply capable_spec in Hcap as [_ Hcap].
    destruct (reconcileDomain_trace a domain s s0 getter existing Hget Hcap Hfetch)
      as (s' & ? & ? & ? & -> & _). eauto.
Qed.

(** X16.  [Start] returns for every list of domains and every provider,
    and it attempts every domain: the trace holds the fetch of each domain
    whose provider has the capabilities and a failure entry for each domain
    whose provider lacks them, also for the domains that come after one
    that failed. *)
Theorem Start_attempts_every_domain {St : Type} (a : App) (domains : list (Domain St))
    (s : St) :
  ∃ s' events,
    Start a domains s = Some (s', events)
    ∧ ∀ domain, domain ∈ domains →
        if capable domain
        then InPass (Called (GetCall (Zone domain))) ∈ events
        else ∃ e, FailedDomain (Zone domain) e ∈ events.
Proof.
  revert s. induction domains as [|domain rest IH]; intros s; simpl.
  - exists s, []. split; [done|]. by intros ? ?%elem_of_nil.
  - assert (∃ s1 events1 err1,
              reconcileDomain a domain s = Some (s1, events1, err1)
              ∧ if capable domain
                then Called (GetCall (Zone domain)) ∈ events1
                else ∃ e, err1 = Some e) as (s1 & events1 & err1 & Hrun & Hdom).
    { destruct (capable domain) eqn:Hcap.
      - destruct (reconcileDomain_capable_fetches a domain s Hcap)
          as (s1 & events1 & err1 & Hrun).
        eexists s1, _, err1. split; [exact Hrun|]. by left.
      - destruct (reconcileDomain_incapable a domain s Hcap) as [e Hrun].
        eexists s, _, _. split; [exact Hrun|]. by exists e. }
    destruct (IH s1) as (s' & later & Hstart & Hlater).
    rewrite Hrun, Hstart. eexists s', _. split; [done|].
    intros d [->|Hd]%elem_of_cons.
    + destruct (capable domain).
      * apply elem_of_app. left. apply list_elem_of_fmap. by eexists.
      * destruct Hdom as [e ->]. exists e.
        apply elem_of_app. right. apply elem_of_app. left. by left.
    + specialize (Hlater d Hd). destruct (capable d).
      * apply elem_of_app. right. apply elem_of_app. by right.
      * destruct Hlater as [e He]. exists e.
        apply elem_of_app. right. apply elem_of_app. by right.
Qed.

Lemma provisionDomains_outcome {St : Type} (load : @Loader St)
    (domains : list (string * Domain St)) :
  match provisionDomains load domains with
  | (done, logged, err) =>
      Forall2 (loaded load) (take (length done) domains) done
      ∧ length logged = length done
      ∧ match err with
        | None => length done = length domains
        | Some e => ∃ c, domains !! length done = Some c ∧ refused load c e
        end
  end.
Proof.
  induction domains as [|[raw domain] rest IH]; simpl.
  - split; [constructor|done].
  - destruct (Nat.eqb (String.length raw) 0) eqn:Hraw.
    { simpl. split; [constructor|]. split; [done|].
      exists (raw, domain). split; [done|]. left. split; [|done].
      simpl. apply Nat.eqb_eq in Hraw. by destruct raw. }
    destruct (load raw) as [[val type]|e] eqn:Hload.
    + destruct (provisionDomains load rest) as [[done logged] err].
      destruct IH as (Hdone & Hlogged & Herr). simpl. split; [|split].
      * constructor; [|done]. split; [done|]. split; [done|]. by exists type.
      * by rewrite Hlogged.
      * destruct err as [e|]; [done|]. by rewrite Herr.
    + simpl. split; [constructor|]. split; [done|].
      exists (raw, domain). split; [done|]. right. by exists e.
Qed.

(** X17.  [Provision] leaves an owner ID that is never empty, and the one
    configured when there is one.  The domains it has provisioned are a
    prefix of the configured list, each with its zone and records unchanged
    and the provider loaded from its raw configuration, one log entry for
    each.  It returns no error exactly when that prefix is the whole list;
    otherwise the error is that of the first domain left, whose provider
    configuration is empty or does not load, and no later domain is
    loaded. *)
Theorem Provision_outcome {St : Type} (a : App) (load : @Loader St)
    (domains : list (string * Domain St)) :
  match Provision a load domains with
  | (a', done, logged, err) =>
      OwnerID a' ≠ ""
      ∧ (OwnerID a ≠ "" → a' = a)
      ∧ Forall2 (loaded load) (take (length done) domains) done
      ∧ length logged = length done
      ∧ match err with
        | None => length done = length domains
        | Some e =>
            (length done < length domains)%nat
            ∧ ∃ c, domains !! length done = Some c ∧ refused load c e
        end
  end.
Proof.
  unfold Provision. pose proof (provisionDomains_outcome load domains) as H.
  destruct (provisionDomains load domains) as [[done logged] err].
  destruct H as (Hdone & Hlogged & Herr).
  split; [|split; [|split; [done|split; [done|]]]].
  - destruct (String.eqb (OwnerID a) "") eqn:E; [done|]. by apply String.eqb_neq in E.
  - intros Hne. destruct (String.eqb (OwnerID a) "") eqn:E; [|done].
    by apply String.eqb_eq in E.
  - destruct err as [e|]; [|done]. split; [|done].
    destruct Herr as (c & Hc & _). by apply lookup_lt_Some in Hc.
Qed.
